(** * CloseToJunctionTeller: junction-proximity scan and story lifecycle

    A shallow embedding of
    [modules/storytelling/story_tellers/close_to_junction_teller.cc]
    together with the properties of its point classifier, of its scanner
    and of its two-state story controller.

    - C++ [double] is IEEE 754 binary64, taken from [SpecFloat] with
      [prec = 53] and [emax = 1024]; comparisons and subtraction are the
      ones of that model, so NaN, infinities and signed zeros behave as
      they do in the program.
    - [std::string] is [string]; protobuf messages are records; a
      [shared_ptr] that may be null is an [option].
    - The map and the gflags are parameters: [HDMap] and [Flags].
    - The function-local [static std::string overlapping_junction_id] and
      the glog output are threaded explicitly in a [World] record, which
      also keeps the list of path points handed to the classifiers.
    - Out-parameters are passed in and handed back; an uninitialised local
      is [None], and reading it, like indexing an empty repeated field,
      is an explicit [Undefined] outcome.

    Layout: definitions (model of the source, vocabulary, a small
    concrete map), facts on binary64, facts on the loop, then the
    properties C1 to C10 with concrete runs, then further properties
    X1 to X13 of the scan and of the controller across cycles. *)

From Stdlib Require Import ZArith List String Bool Lia Sorted.
From Stdlib Require Import Floats.SpecFloat.
Import ListNotations.

Local Open Scope string_scope.
Local Open Scope Z_scope.
Local Open Scope list_scope.

(** ** IEEE binary64 *)

Module Double.

Definition prec : Z := 53.
Definition emax : Z := 1024.

Definition double : Type := spec_float.

(** An integer literal converted to [double]. *)
Definition of_Z (z : Z) : double := binary_normalize prec emax z 0 false.

Definition zero : double := of_Z 0.

Definition sub (a b : double) : double := SFsub prec emax a b.

(** [a > b], [a >= b], [a != b]. *)
Definition gt (a b : double) : bool := SFltb b a.
Definition ge (a b : double) : bool := SFleb b a.
Definition lt (a b : double) : bool := SFltb a b.
Definition ne (a b : double) : bool := negb (SFeqb a b).

(** Implicit conversions [bool -> double] and [double -> bool]. *)
Definition of_bool (b : bool) : double := if b then of_Z 1 else of_Z 0.
Definition to_bool (d : double) : bool := ne d zero.

(** The values a C++ [double] can hold: mantissa and exponent in
    binary64 range. *)
Definition valid (d : double) : bool := valid_binary prec emax d.

Definition is_finite (d : double) : bool :=
  match d with
  | S754_zero _ | S754_finite _ _ _ => true
  | _ => false
  end.

(** Sign test on the representation: zero of either sign, a positive
    finite number or plus infinity. *)
Definition nonneg (d : double) : Prop :=
  match d with
  | S754_zero _ | S754_infinity false | S754_finite false _ _ => True
  | _ => False
  end.

(** Strictly positive: a positive finite number or plus infinity. *)
Definition positive (d : double) : Prop :=
  match d with
  | S754_infinity false | S754_finite false _ _ => True
  | _ => False
  end.

(** Strictly negative: a negative finite number or minus infinity. *)
Definition negative (d : double) : Prop :=
  match d with
  | S754_infinity true | S754_finite true _ _ => True
  | _ => False
  end.

End Double.

Definition double : Type := Double.double.

(** ** Messages *)

Record PointENU := { enu_x : double; enu_y : double }.

Record PathPoint := { x : double; y : double; s : double }.

Record TrajectoryPoint := { path_point : PathPoint }.

Record ADCTrajectory := { trajectory_point : list TrajectoryPoint }.

Record Polygon := { point : list PointENU }.

(** [polygon().point_size()] *)
Definition point_size (p : Polygon) : Z := Z.of_nat (List.length (point p)).

(** [JunctionInfo] and [PNCJunctionInfo] expose the same two accessors
    here: [id().id()] and [junction().polygon()] (resp.
    [pnc_junction().polygon()]). *)
Record JunctionInfo := { junction_id_of : string; junction_polygon : Polygon }.

Record PNCJunctionInfo :=
  { pnc_junction_id_of : string; pnc_junction_polygon : Polygon }.

(** [CloseToJunction::JunctionType] *)
Inductive JunctionType := PNC_JUNCTION | JUNCTION.

Record CloseToJunction :=
  { story_id : string; story_type : JunctionType; story_distance : double }.

(** [Stories]: only the [close_to_junction] field is touched. *)
Record Stories := { close_to_junction : option CloseToJunction }.

Definition has_close_to_junction (st : Stories) : bool :=
  match close_to_junction st with Some _ => true | None => false end.

Definition clear_close_to_junction (st : Stories) : Stories :=
  {| close_to_junction := None |}.

(** ** External collaborators *)

(** [HDMapUtil::BaseMap()]: the two queries fill a vector of shared
    pointers, ranked by the map. *)
Record HDMap :=
  { GetJunctions : PointENU -> double -> list (option JunctionInfo);
    GetPNCJunctions : PointENU -> double -> list (option PNCJunctionInfo) }.

(** gflags read by this file. *)
Record Flags :=
  { FLAGS_search_radius : double;
    FLAGS_adc_trajectory_search_distance : double }.

Inductive LogEvent :=
| AERROR (msg : string)
| AINFO (msg : string).

(** State that outlives a call: the static of [GetNearestJunction], the
    log, and (ghost) the path points handed to the classifiers so far. *)
Record World :=
  { overlapping_junction_id : string;
    log : list LogEvent;
    examined : list PathPoint }.

Definition set_overlapping (w : World) (v : string) : World :=
  {| overlapping_junction_id := v; log := log w; examined := examined w |}.

Definition emit (w : World) (e : LogEvent) : World :=
  {| overlapping_junction_id := overlapping_junction_id w;
     log := log w ++ [e];
     examined := examined w |}.

Definition note_examined (w : World) (p : PathPoint) : World :=
  {| overlapping_junction_id := overlapping_junction_id w;
     log := log w;
     examined := examined w ++ [p] |}.

(** Undefined behaviour is made explicit. *)
Inductive UB := IndexOutOfRange | UninitialisedRead.

Inductive result (A : Type) :=
| Done (a : A)
| Undefined (why : UB).
Arguments Done {A} a.
Arguments Undefined {A} why.

Definition bind {A B} (r : result A) (k : A -> result B) : result B :=
  match r with
  | Done a => k a
  | Undefined why => Undefined why
  end.

(** Out-parameters of [GetNearestJunction]. *)
Record Outputs :=
  { out_id : string; out_type : option JunctionType; out_distance : double }.

(** ** Concrete map, flags and trajectories used by the examples *)

Definition vertex (a b : Z) : PointENU :=
  {| enu_x := Double.of_Z a; enu_y := Double.of_Z b |}.

Definition triangle : Polygon := {| point := [vertex 0 0; vertex 4 0; vertex 0 4] |}.

Definition segment : Polygon := {| point := [vertex 0 0; vertex 4 0] |}.

(** A toy map keyed on the abscissa: [x = 1] PNC junction "P" only,
    [x = 2] plain junction "A" only, [x = 3] both, [x = 4] a degenerate
    plain junction followed by a proper one, nothing elsewhere. *)
Definition toy_map : HDMap :=
  {| GetJunctions := fun q _ =>
       if SFeqb (enu_x q) (Double.of_Z 2) || SFeqb (enu_x q) (Double.of_Z 3)
       then [Some {| junction_id_of := "A"; junction_polygon := triangle |}]
       else if SFeqb (enu_x q) (Double.of_Z 4)
       then [Some {| junction_id_of := "D"; junction_polygon := segment |};
             Some {| junction_id_of := "A"; junction_polygon := triangle |}]
       else [];
     GetPNCJunctions := fun q _ =>
       if SFeqb (enu_x q) (Double.of_Z 1) || SFeqb (enu_x q) (Double.of_Z 3)
       then [Some {| pnc_junction_id_of := "P";
                     pnc_junction_polygon := triangle |}]
       else [] |}.

(** The same map with further, lower-ranked candidates appended. *)
Definition toy_map_more : HDMap :=
  {| GetJunctions := fun q r =>
       match GetJunctions toy_map q r with
       | [] => []
       | c :: _ => [c; Some {| junction_id_of := "Z";
                               junction_polygon := triangle |}]
       end;
     GetPNCJunctions := fun q r =>
       match GetPNCJunctions toy_map q r with
       | [] => []
       | c :: _ => [c; None]
       end |}.

Definition toy_flags : Flags :=
  {| FLAGS_search_radius := Double.of_Z 1;
     FLAGS_adc_trajectory_search_distance := Double.of_Z 100 |}.

(** A trajectory point at abscissa [a] with arc length [l]. *)
Definition at_ (a l : Z) : TrajectoryPoint :=
  {| path_point :=
       {| x := Double.of_Z a; y := Double.of_Z 0; s := Double.of_Z l |} |}.

Definition trajectory_of (pts : list TrajectoryPoint) : ADCTrajectory :=
  {| trajectory_point := pts |}.

Definition fresh_world : World :=
  {| overlapping_junction_id := ""; log := []; examined := [] |}.

(** A world whose static holds [h], as a previous scan may have left
    it. *)
Definition world_with (h : string) : World :=
  {| overlapping_junction_id := h; log := []; examined := [] |}.

Definition no_story : Stories := {| close_to_junction := None |}.

(** ** The teller *)

Section Teller.

Variable hdmap : HDMap.
Variable flags : Flags.

(** [IsPointInPNCJunction]: the second argument is the incoming value of
    [*pnc_junction_id], the second component the outgoing one. *)
Definition IsPointInPNCJunction (point : PathPoint) (pnc_junction_id : string)
  : bool * string :=
  let hdmap_point := {| enu_x := x point; enu_y := y point |} in
  let pnc_junctions :=
    GetPNCJunctions hdmap hdmap_point (FLAGS_search_radius flags) in
  match pnc_junctions with
  | [] => (false, pnc_junction_id)
  | None :: _ => (false, pnc_junction_id)
  | Some pnc_junction_info :: _ =>
      if point_size (pnc_junction_polygon pnc_junction_info) >=? 3
      then (true, pnc_junction_id_of pnc_junction_info)
      else (false, pnc_junction_id)
  end.

(** [IsPointInJunction] *)
Definition IsPointInJunction (point : PathPoint) (junction_id : string)
  : bool * string :=
  let hdmap_point := {| enu_x := x point; enu_y := y point |} in
  let junctions :=
    GetJunctions hdmap hdmap_point (FLAGS_search_radius flags) in
  match junctions with
  | [] => (false, junction_id)
  | None :: _ => (false, junction_id)
  | Some junction_info :: _ =>
      if point_size (junction_polygon junction_info) >=? 3
      then (true, junction_id_of junction_info)
      else (false, junction_id)
  end.

(** The range-for of [GetNearestJunction]; leaving the recursion is
    [break].  [junction] and [pnc_junction] are declared [const double]
    in the source, hence the two conversions. *)
Fixpoint scan_points (s_start : double) (points : list TrajectoryPoint)
         (out : Outputs) (w : World) : Outputs * World :=
  match points with
  | [] => (out, w)
  | point :: rest =>
      let path_point := path_point point in
      if Double.gt (s path_point) (FLAGS_adc_trajectory_search_distance flags)
      then (out, w)
      else
        let '(in_junction, junction_id) := IsPointInJunction path_point "" in
        let junction := Double.of_bool in_junction in
        let '(in_pnc_junction, pnc_junction_id) :=
          IsPointInPNCJunction path_point "" in
        let pnc_junction := Double.of_bool in_pnc_junction in
        let w := note_examined w path_point in
        if Double.to_bool pnc_junction then
          ({| out_id := pnc_junction_id;
              out_type := Some PNC_JUNCTION;
              out_distance := Double.sub (s path_point) s_start |},
           set_overlapping w
             (if Double.to_bool junction then junction_id else ""))
        else if Double.to_bool junction then
          if negb (String.eqb junction_id (overlapping_junction_id w)) then
            ({| out_id := junction_id;
                out_type := Some JUNCTION;
                out_distance := Double.sub (s path_point) s_start |}, w)
          else (out, w)
        else
          scan_points s_start rest out (set_overlapping w "")
  end.

(** [GetNearestJunction]: [type] is the incoming content of [*type];
    [*id] and [*distance] are overwritten first. *)
Definition GetNearestJunction (adc_trajectory : ADCTrajectory)
           (type : option JunctionType) (w : World)
  : result (Outputs * World) :=
  let out :=
    {| out_id := ""; out_type := type; out_distance := Double.of_Z (-1) |} in
  match trajectory_point adc_trajectory with
  | [] => Undefined IndexOutOfRange
  | first :: _ =>
      let s_start := s (path_point first) in
      Done (scan_points s_start (trajectory_point adc_trajectory) out w)
  end.

(** [CloseToJunctionTeller::Update]; [trajectory] is what
    [GetLatestObserved] returned, [type] starts uninitialised. *)
Definition Update (trajectory : option ADCTrajectory)
           (stories : Stories) (w : World) : result (Stories * World) :=
  match trajectory with
  | None => Done (stories, emit w (AERROR "Planning trajectory not ready."))
  | Some trajectory =>
      match trajectory_point trajectory with
      | [] => Done (stories, emit w (AERROR "Planning trajectory not ready."))
      | _ :: _ =>
          bind (GetNearestJunction trajectory None w) (fun '(out, w) =>
            let junction_id := out_id out in
            let type := out_type out in
            let distance := out_distance out in
            let close_to_junction := Double.ge distance Double.zero in
            if close_to_junction then
              let w :=
                if negb (has_close_to_junction stories)
                then emit w (AINFO "Enter CloseToJunction story")
                else w in
              match type with
              | None => Undefined UninitialisedRead
              | Some type =>
                  Done ({| close_to_junction :=
                             Some {| story_id := junction_id;
                                     story_type := type;
                                     story_distance := distance |} |}, w)
              end
            else if has_close_to_junction stories then
              Done (clear_close_to_junction stories,
                    emit w (AINFO "Exit CloseToJunction story"))
            else Done (stories, w))
      end
  end.

(** The periodic caller: one [Update] per cycle, each with the snapshot
    read in that cycle; the story record after every cycle is kept. *)
Fixpoint Update_cycles (snapshots : list (option ADCTrajectory))
         (stories : Stories) (w : World) : result (list Stories * World) :=
  match snapshots with
  | [] => Done ([], w)
  | trajectory :: later =>
      bind (Update trajectory stories w) (fun '(stories1, w1) =>
      bind (Update_cycles later stories1 w1) (fun '(records, wn) =>
      Done (stories1 :: records, wn)))
  end.

(** *** Vocabulary for the statements *)

(** The loop guard at line 98. *)
Definition beyond_search_distance (p : PathPoint) : bool :=
  Double.gt (s p) (FLAGS_adc_trajectory_search_distance flags).

(** The classifier verdicts as the loop obtains them. *)
Definition in_junction (p : PathPoint) : bool :=
  fst (IsPointInJunction p "").
Definition junction_id_at (p : PathPoint) : string :=
  snd (IsPointInJunction p "").
Definition in_pnc_junction (p : PathPoint) : bool :=
  fst (IsPointInPNCJunction p "").
Definition pnc_junction_id_at (p : PathPoint) : string :=
  snd (IsPointInPNCJunction p "").

(** A point the loop examines and walks past: within the guard and in
    neither junction kind. *)
Definition passed_over (tp : TrajectoryPoint) : Prop :=
  beyond_search_distance (path_point tp) = false
  /\ in_pnc_junction (path_point tp) = false
  /\ in_junction (path_point tp) = false.

(** The world once the loop has walked past [pre]. *)
Definition walked (pre : list TrajectoryPoint) (w : World) : World :=
  {| overlapping_junction_id :=
       match pre with [] => overlapping_junction_id w | _ :: _ => "" end;
     log := log w;
     examined := examined w ++ map path_point pre |}.

(** The loop left at [tp] through one of its two assigning branches: the
    points in [pre] were walked past, [tp] passed the guard and matched a
    PNC junction, or a plain junction only whose id differs from
    [stored], the content of the static at that moment. *)
Definition decided_at (pre : list TrajectoryPoint) (tp : TrajectoryPoint)
           (s_start : double) (stored : string) (out : Outputs) : Prop :=
  let p := path_point tp in
  Forall passed_over pre
  /\ beyond_search_distance p = false
  /\ out_distance out = Double.sub (s p) s_start
  /\ ((in_pnc_junction p = true
       /\ out_type out = Some PNC_JUNCTION
       /\ out_id out = pnc_junction_id_at p)
      \/ (in_pnc_junction p = false
          /\ in_junction p = true
          /\ junction_id_at p <> stored
          /\ out_type out = Some JUNCTION
          /\ out_id out = junction_id_at p)).

(** What [GetNearestJunction] hands back when nothing was found. *)
Definition no_junction_found (type : option JunctionType) : Outputs :=
  {| out_id := ""; out_type := type; out_distance := Double.of_Z (-1) |}.

End Teller.

(** ** The data model of a trajectory

    Arc lengths are binary64 values proper, finite, and non-decreasing
    along the sequence of points. *)

Definition arc_length (tp : TrajectoryPoint) : double := s (path_point tp).

Definition arc_length_ok (tp : TrajectoryPoint) : Prop :=
  Double.valid (arc_length tp) = true
  /\ Double.is_finite (arc_length tp) = true.

Definition arc_length_le (a b : TrajectoryPoint) : Prop :=
  Double.ge (arc_length b) (arc_length a) = true.

Definition well_formed_trajectory (traj : ADCTrajectory) : Prop :=
  Forall arc_length_ok (trajectory_point traj)
  /\ Sorted arc_length_le (trajectory_point traj).

(** Two worlds that agree on the static of [GetNearestJunction]. *)
Definition same_static (w v : World) : Prop :=
  overlapping_junction_id w = overlapping_junction_id v.

(** The story record [Update] leaves behind for given scanner outputs. *)
Definition story_of (out : Outputs) (ty : JunctionType) : Stories :=
  {| close_to_junction :=
       Some {| story_id := out_id out;
               story_type := ty;
               story_distance := out_distance out |} |}.

(** ** Vocabulary for the record and the log across cycles *)

(** A present record carries a distance that is [>= 0]. *)
Definition story_distance_ok (st : Stories) : Prop :=
  match close_to_junction st with
  | Some c => Double.ge (story_distance c) Double.zero = true
  | None => True
  end.

Definition is_enter (e : LogEvent) : bool :=
  match e with
  | AINFO msg => String.eqb msg "Enter CloseToJunction story"
  | AERROR _ => false
  end.

Definition is_exit (e : LogEvent) : bool :=
  match e with
  | AINFO msg => String.eqb msg "Exit CloseToJunction story"
  | AERROR _ => false
  end.

(** Number of "Enter" messages minus number of "Exit" messages. *)
Definition balance (l : list LogEvent) : Z :=
  Z.of_nat (List.length (filter is_enter l))
  - Z.of_nat (List.length (filter is_exit l)).

(** 1 when the record is present, 0 when it is absent. *)
Definition presence (st : Stories) : Z :=
  if has_close_to_junction st then 1 else 0.

(** ** Facts on binary64 comparisons *)

Lemma to_bool_of_bool (b : bool) : Double.to_bool (Double.of_bool b) = b.
Proof. destruct b; reflexivity. Qed.

Lemma SFcompare_refl_not_Lt (d : spec_float) : SFcompare d d <> Some Lt.
Proof.
  destruct d as [sg | sg | | sg m e]; cbn; try destruct sg; try discriminate.
  - rewrite Z.compare_refl.
    change (Pos.compare_cont Eq m m) with (Pos.compare m m).
    rewrite Pos.compare_refl. discriminate.
  - rewrite Z.compare_refl.
    change (Pos.compare_cont Eq m m) with (Pos.compare m m).
    rewrite Pos.compare_refl. discriminate.
Qed.

Lemma gt_irrefl (d : double) : Double.gt d d = false.
Proof.
  unfold Double.gt, SFltb.
  pose proof (SFcompare_refl_not_Lt d) as H.
  destruct (SFcompare d d) as [[ | | ] | ]; congruence.
Qed.

Lemma lt_zero_not_ge (d : double) :
  Double.lt d Double.zero = true -> Double.ge d Double.zero = false.
Proof.
  destruct d as [sg | sg | | sg m e]; try destruct sg; cbn; congruence.
Qed.

(** *** The sign of a difference *)

Lemma nonneg_leb d : Double.nonneg d -> SFleb (S754_zero false) d = true.
Proof. destruct d as [sg | [ | ] | | [ | ] m e]; cbn; tauto. Qed.

Lemma iter_pos_invariant {A} (P : A -> Prop) (f : A -> A) :
  (forall a, P a -> P (f a)) -> forall n a, P a -> P (iter_pos f n a).
Proof.
  intros Hf. induction n as [n IH | n IH | ]; intros a Ha; cbn; auto.
Qed.

Lemma shr_1_nonneg r : 0 <= shr_m r -> 0 <= shr_m (shr_1 r).
Proof.
  destruct r as [m r0 s0]. cbn.
  destruct m as [ | [p | p | ] | p]; cbn; lia.
Qed.

Lemma shr_nonneg r e n : 0 <= shr_m r -> 0 <= shr_m (fst (shr r e n)).
Proof.
  intros Hr. destruct n as [ | p | p]; cbn [shr fst]; auto.
  apply iter_pos_invariant; auto using shr_1_nonneg.
Qed.

Lemma shr_fexp_nonneg prec emax m e l :
  0 <= m -> 0 <= shr_m (fst (shr_fexp prec emax m e l)).
Proof.
  intros Hm. unfold shr_fexp. apply shr_nonneg.
  destruct l as [ | [ | | ]]; exact Hm.
Qed.

Lemma round_nearest_even_nonneg m l : 0 <= m -> 0 <= round_nearest_even m l.
Proof.
  intros Hm. unfold round_nearest_even.
  destruct l as [ | [ | | ]]; try destruct (Z.even m); lia.
Qed.

Lemma binary_round_aux_nonneg prec emax m e l :
  0 <= m -> Double.nonneg (binary_round_aux prec emax false m e l).
Proof.
  intros Hm. unfold binary_round_aux.
  pose proof (shr_fexp_nonneg prec emax m e l Hm) as H1.
  destruct (shr_fexp prec emax m e l) as [r1 e1]. cbn [fst] in H1.
  pose proof (shr_fexp_nonneg prec emax
                (round_nearest_even (shr_m r1) (loc_of_shr_record r1)) e1
                loc_Exact (round_nearest_even_nonneg _ _ H1)) as H2.
  destruct (shr_fexp prec emax _ e1 loc_Exact) as [r2 e2]. cbn [fst] in H2.
  destruct (shr_m r2) as [ | p | p]; cbn; try lia; auto.
  destruct (e2 <=? emax - prec); exact I.
Qed.

Lemma binary_normalize_nonneg prec emax m e :
  0 <= m -> Double.nonneg (binary_normalize prec emax m e false).
Proof.
  intros Hm. destruct m as [ | p | p]; cbn [binary_normalize]; try lia.
  - exact I.
  - unfold binary_round.
    destruct (shl_align p e _) as [mz ez].
    apply binary_round_aux_nonneg. lia.
Qed.

Lemma iter_xO_pow m d : Zpos (Pos.iter xO m d) = Zpos m * 2 ^ Zpos d.
Proof.
  induction d as [ | d IH] using Pos.peano_ind.
  - cbn. lia.
  - rewrite Pos.iter_succ, Pos2Z.inj_xO, IH, Pos2Z.inj_succ, Z.pow_succ_r; lia.
Qed.

Lemma shl_align_value m e e' :
  e' <= e -> Zpos (fst (shl_align m e e')) = Zpos m * 2 ^ (e - e').
Proof.
  intros Hle. unfold shl_align.
  destruct (e' - e) as [ | d | d] eqn:E; cbn [fst].
  - replace (e - e') with 0 by lia. cbn. lia.
  - lia.
  - rewrite iter_xO_pow. f_equal. f_equal. lia.
Qed.

Lemma digits2_pos_bounds m :
  2 ^ (Zpos (digits2_pos m) - 1) <= Zpos m < 2 ^ Zpos (digits2_pos m).
Proof.
  induction m as [m IH | m IH | ]; cbn [digits2_pos].
  - rewrite Pos2Z.inj_succ, Z.pow_succ_r by lia.
    replace (Z.succ (Zpos (digits2_pos m)) - 1)
      with (Z.succ (Zpos (digits2_pos m) - 1)) by lia.
    rewrite Z.pow_succ_r by lia. lia.
  - rewrite Pos2Z.inj_succ, Z.pow_succ_r by lia.
    replace (Z.succ (Zpos (digits2_pos m)) - 1)
      with (Z.succ (Zpos (digits2_pos m) - 1)) by lia.
    rewrite Z.pow_succ_r by lia. lia.
  - cbn. lia.
Qed.

Lemma canonical_exponent_order prec emax ma ea mb eb :
  canonical_mantissa prec emax ma ea = true ->
  canonical_mantissa prec emax mb eb = true ->
  ea < eb ->
  Zpos ma < Zpos mb * 2 ^ (eb - ea).
Proof.
  unfold canonical_mantissa, fexp. intros Ha Hb Hlt.
  apply Z.eqb_eq in Ha, Hb.
  pose proof (digits2_pos_bounds ma) as [_ Hma].
  pose proof (digits2_pos_bounds mb) as [Hmb _].
  set (da := Zpos (digits2_pos ma)) in *.
  set (db := Zpos (digits2_pos mb)) in *.
  assert (Hda : da <= db) by lia.
  assert (Hdb : db - 1 = da - 1 + (db - da)) by lia.
  assert (H2 : 2 ^ da = 2 * 2 ^ (da - 1)).
  { rewrite <- Z.pow_succ_r by (subst da; lia). f_equal. lia. }
  assert (H3 : 2 ^ (db - 1) = 2 ^ (da - 1) * 2 ^ (db - da)).
  { rewrite Hdb at 1. apply Z.pow_add_r; subst da; lia. }
  assert (H4 : 2 <= 2 ^ (eb - ea)).
  { change 2 with (2 ^ 1) at 1. apply Z.pow_le_mono_r; lia. }
  assert (H5 : 1 <= 2 ^ (db - da)).
  { change 1 with (2 ^ 0). apply Z.pow_le_mono_r; lia. }
  assert (H6 : 0 < 2 ^ (da - 1)).
  { apply Z.pow_pos_nonneg; subst da; lia. }
  nia.
Qed.

Lemma pos_compare_cont_le ma mb :
  Pos.compare_cont Eq ma mb <> Gt -> Zpos ma <= Zpos mb.
Proof.
  change (Pos.compare_cont Eq ma mb) with (Pos.compare ma mb).
  intros H. apply Pos2Z.pos_le_pos, Pos.compare_le_iff, H.
Qed.

Lemma pos_compare_cont_ge ma mb :
  Pos.compare_cont Eq ma mb <> Lt -> Zpos mb <= Zpos ma.
Proof.
  change (Pos.compare_cont Eq ma mb) with (Pos.compare ma mb).
  intros H. apply Pos2Z.pos_le_pos, Pos.ge_le. exact H.
Qed.

Lemma SFsub_nonneg prec emax a b :
  valid_binary prec emax a = true ->
  valid_binary prec emax b = true ->
  SFleb a b = true ->
  match a, b with
  | S754_infinity _, _ | _, S754_infinity _ => True
  | _, _ => Double.nonneg (SFsub prec emax b a)
  end.
Proof.
  intros Va Vb Hle.
  destruct a as [sa | sa | | sa ma ea]; destruct b as [sb | sb | | sb mb eb];
    try exact I; try discriminate Hle.
  - destruct sa, sb; exact I.
  - destruct sb; [discriminate Hle | exact I].
  - destruct sa; [exact I | discriminate Hle].
  - cbn [valid_binary] in Va, Vb. unfold bounded in Va, Vb.
    apply andb_prop in Va, Vb. destruct Va as [Ca _], Vb as [Cb _].
    cbn [SFsub]. apply binary_normalize_nonneg.
    assert (Hb' := shl_align_value mb eb (Z.min eb ea) (Z.le_min_l _ _)).
    assert (Ha' := shl_align_value ma ea (Z.min eb ea) (Z.le_min_r _ _)).
    rewrite Ha', Hb'. clear Ha' Hb'.
    unfold SFleb, SFcompare in Hle.
    destruct sa, sb; cbn [cond_Zopp]; try discriminate Hle.
    + (* both negative *)
      destruct (Z.compare_spec ea eb) as [E | L | G]; try discriminate Hle.
      * subst eb. rewrite Z.min_id, Z.sub_diag. cbn [Z.pow].
        assert (Zpos mb <= Zpos ma).
        { apply pos_compare_cont_ge.
          destruct (Pos.compare_cont Eq ma mb); cbn in Hle; congruence. }
        lia.
      * pose proof (canonical_exponent_order _ _ _ _ _ _ Cb Ca G).
        rewrite Z.min_l by lia. rewrite Z.sub_diag. cbn [Z.pow]. lia.
    + (* a negative, b positive *)
      assert (0 < 2 ^ (eb - Z.min eb ea)) by (apply Z.pow_pos_nonneg; lia).
      assert (0 < 2 ^ (ea - Z.min eb ea)) by (apply Z.pow_pos_nonneg; lia).
      nia.
    + (* both positive *)
      destruct (Z.compare_spec ea eb) as [E | L | G]; try discriminate Hle.
      * subst eb. rewrite Z.min_id, Z.sub_diag. cbn [Z.pow].
        assert (Zpos ma <= Zpos mb).
        { apply pos_compare_cont_le.
          destruct (Pos.compare_cont Eq ma mb); congruence. }
        lia.
      * pose proof (canonical_exponent_order _ _ _ _ _ _ Ca Cb L).
        rewrite Z.min_r by lia. rewrite Z.sub_diag. cbn [Z.pow]. lia.
Qed.

(** ** Order facts used for the data model *)

Lemma sub_nonneg (a b : double) :
  Double.valid a = true -> Double.valid b = true ->
  Double.is_finite a = true -> Double.is_finite b = true ->
  Double.ge b a = true ->
  Double.ge (Double.sub b a) Double.zero = true.
Proof.
  intros Va Vb Fa Fb Hle.
  pose proof (SFsub_nonneg Double.prec Double.emax a b Va Vb Hle) as H.
  unfold Double.ge, Double.sub. change Double.zero with (S754_zero false).
  apply nonneg_leb.
  destruct a as [sa | sa | | sa ma ea]; try discriminate Fa;
    destruct b as [sb | sb | | sb mb eb]; try discriminate Fb; exact H.
Qed.

Lemma SFleb_refl (d : spec_float) : Double.is_finite d = true -> SFleb d d = true.
Proof.
  intros Fd. unfold SFleb, SFcompare.
  destruct d as [sg | sg | | sg m e]; try discriminate Fd; [reflexivity | ].
  rewrite Z.compare_refl.
  change (Pos.compare_cont Eq m m) with (Pos.compare m m).
  rewrite Pos.compare_refl. destruct sg; reflexivity.
Qed.

Lemma SFleb_trans (a b c : spec_float) :
  SFleb a b = true -> SFleb b c = true -> SFleb a c = true.
Proof.
  unfold SFleb, SFcompare.
  destruct a as [[ | ] | [ | ] | | [ | ] ma ea];
    destruct b as [[ | ] | [ | ] | | [ | ] mb eb];
    try discriminate;
    destruct c as [[ | ] | [ | ] | | [ | ] mc ec];
    try discriminate; try reflexivity;
    change (Pos.compare_cont Eq) with Pos.compare;
    destruct (Z.compare_spec ea eb); try discriminate;
    destruct (Z.compare_spec eb ec); try discriminate;
    destruct (Z.compare_spec ea ec); try reflexivity; try lia;
    subst;
    destruct (Pos.compare_spec ma mb); try discriminate;
    destruct (Pos.compare_spec mb mc); try discriminate;
    destruct (Pos.compare_spec ma mc); try reflexivity; try lia.
Qed.

Lemma arc_length_le_trans a b c :
  arc_length_le a b -> arc_length_le b c -> arc_length_le a c.
Proof. unfold arc_length_le, Double.ge. apply SFleb_trans. Qed.

(** In a well-formed trajectory no point lies behind the first one. *)
Lemma first_point_is_least first rest :
  Forall arc_length_ok (first :: rest) ->
  Sorted arc_length_le (first :: rest) ->
  Forall (arc_length_le first) (first :: rest).
Proof.
  intros Hok Hsorted. constructor.
  - apply SFleb_refl. inversion Hok as [ | ? ? [_ Hfin] _]; exact Hfin.
  - apply Sorted_StronglySorted in Hsorted.
    + now inversion Hsorted.
    + intros a b c. apply arc_length_le_trans.
Qed.

(** ** How the scan loop runs *)

Section ScanFacts.

Variable hdmap : HDMap.
Variable flags : Flags.

Local Abbreviation scan := (scan_points hdmap flags).
Local Abbreviation beyond := (beyond_search_distance flags).
Local Abbreviation in_plain := (in_junction hdmap flags).
Local Abbreviation plain_id := (junction_id_at hdmap flags).
Local Abbreviation in_pnc := (in_pnc_junction hdmap flags).
Local Abbreviation pnc_id := (pnc_junction_id_at hdmap flags).
Local Abbreviation skipped := (passed_over hdmap flags).

Lemma scan_points_cons s_start tp rest out w :
  scan s_start (tp :: rest) out w =
  let p := path_point tp in
  if beyond p then (out, w)
  else
    let w1 := note_examined w p in
    if in_pnc p then
      ({| out_id := pnc_id p;
          out_type := Some PNC_JUNCTION;
          out_distance := Double.sub (s p) s_start |},
       set_overlapping w1 (if in_plain p then plain_id p else ""))
    else if in_plain p then
      if negb (String.eqb (plain_id p) (overlapping_junction_id w)) then
        ({| out_id := plain_id p;
            out_type := Some JUNCTION;
            out_distance := Double.sub (s p) s_start |}, w1)
      else (out, w1)
    else scan s_start rest out (set_overlapping w1 "").
Proof.
  unfold beyond_search_distance, in_pnc_junction, in_junction,
    pnc_junction_id_at, junction_id_at.
  cbn [scan_points].
  destruct (Double.gt _ _); [reflexivity|].
  destruct (IsPointInJunction hdmap flags (path_point tp) "") as [jb jid].
  destruct (IsPointInPNCJunction hdmap flags (path_point tp) "") as [pb pid].
  rewrite !to_bool_of_bool. cbn [fst snd].
  reflexivity.
Qed.

Lemma walked_nil w : walked [] w = w.
Proof.
  unfold walked. cbn. rewrite app_nil_r. destruct w; reflexivity.
Qed.

Lemma walked_cons tp pre w :
  walked pre (set_overlapping (note_examined w (path_point tp)) "")
  = walked (tp :: pre) w.
Proof.
  unfold walked. cbn. rewrite <- app_assoc. cbn.
  destruct pre; reflexivity.
Qed.

Lemma scan_points_walk s_start pre post out w :
  Forall skipped pre ->
  scan s_start (pre ++ post) out w = scan s_start post out (walked pre w).
Proof.
  intros Hpre. revert w.
  induction Hpre as [ | tp pre [Hb [Hp Hj]] _ IH]; intros w.
  - now rewrite walked_nil.
  - cbn [app]. rewrite scan_points_cons. cbv zeta.
    rewrite Hb, Hp, Hj, IH, walked_cons. reflexivity.
Qed.

(** [GetNearestJunction] on a trajectory split around the point where the
    loop leaves. *)
Lemma GetNearestJunction_split traj pre p post type w :
  trajectory_point traj = pre ++ p :: post ->
  Forall skipped pre ->
  GetNearestJunction hdmap flags traj type w =
  Done (scan (s (path_point (hd p pre))) (p :: post)
          (no_junction_found type) (walked pre w)).
Proof.
  intros Hsplit Hpre. unfold GetNearestJunction. rewrite Hsplit.
  destruct pre as [ | first pre']; cbn [app hd].
  - now rewrite walked_nil.
  - change (first :: pre' ++ p :: post) with ((first :: pre') ++ p :: post).
    now rewrite scan_points_walk.
Qed.

(** The points examined by one scan are a prefix of the trajectory and
    none of them is beyond the guard. *)
Lemma scan_points_examined s_start points out w :
  exists seen rest,
    points = seen ++ rest
    /\ examined (snd (scan s_start points out w))
       = examined w ++ map path_point seen
    /\ Forall (fun tp => beyond (path_point tp) = false) seen.
Proof.
  revert w. induction points as [ | tp points IH]; intros w.
  - exists [], []. cbn. rewrite app_nil_r. auto.
  - rewrite scan_points_cons. cbv zeta.
    destruct (beyond (path_point tp)) eqn:Hb.
    { exists [], (tp :: points). cbn. rewrite app_nil_r. auto. }
    assert (Hone : forall (o : Outputs) ov,
      exists seen rest, tp :: points = seen ++ rest
        /\ examined (snd (o, set_overlapping
                               (note_examined w (path_point tp)) ov))
           = examined w ++ map path_point seen
        /\ Forall (fun tp => beyond (path_point tp) = false) seen).
    { intros o ov. exists [tp], points. cbn. auto. }
    destruct (in_pnc (path_point tp)); [apply Hone|].
    destruct (in_plain (path_point tp)).
    { destruct (negb _);
        exists [tp], points; cbn; auto. }
    destruct (IH (set_overlapping (note_examined w (path_point tp)) ""))
      as (seen & rest & -> & Hex & Hall).
    exists (tp :: seen), rest. cbn [app map]. split; [reflexivity|]. split.
    + rewrite Hex. cbn. now rewrite <- app_assoc.
    + now constructor.
Qed.

End ScanFacts.

(** ** The point classifier *)

Lemma IsPointInJunction_head hdmap flags p id0 :
  IsPointInJunction hdmap flags p id0 =
  match hd_error (GetJunctions hdmap {| enu_x := x p; enu_y := y p |}
                    (FLAGS_search_radius flags)) with
  | Some (Some j) =>
      if point_size (junction_polygon j) >=? 3
      then (true, junction_id_of j) else (false, id0)
  | _ => (false, id0)
  end.
Proof.
  unfold IsPointInJunction. cbv zeta.
  destruct (GetJunctions _ _ _) as [ | [j | ] rest]; reflexivity.
Qed.

Lemma IsPointInPNCJunction_head hdmap flags p id0 :
  IsPointInPNCJunction hdmap flags p id0 =
  match hd_error (GetPNCJunctions hdmap {| enu_x := x p; enu_y := y p |}
                    (FLAGS_search_radius flags)) with
  | Some (Some j) =>
      if point_size (pnc_junction_polygon j) >=? 3
      then (true, pnc_junction_id_of j) else (false, id0)
  | _ => (false, id0)
  end.
Proof.
  unfold IsPointInPNCJunction. cbv zeta.
  destruct (GetPNCJunctions _ _ _) as [ | [j | ] rest]; reflexivity.
Qed.

(** C9. For every path point and for each junction kind, the classifier
    answers "not found" exactly when the candidate list of the map query
    is empty, or its first element is null, or the polygon of the first
    candidate has fewer than 3 vertices; it answers "found" exactly when
    the first candidate is present with at least 3 vertices, and then
    hands out that candidate's identifier.  Candidates after the first
    never matter: two maps whose candidate lists agree on the first
    element give the same answer. *)
Theorem classifier_uses_first_candidate :
  forall hdmap flags p id0,
    let q := {| enu_x := x p; enu_y := y p |} in
    let r := FLAGS_search_radius flags in
    let js := GetJunctions hdmap q r in
    let ps := GetPNCJunctions hdmap q r in
    ((fst (IsPointInJunction hdmap flags p id0) = false <->
      (js = [] \/ hd_error js = Some None \/
       exists j, hd_error js = Some (Some j)
                 /\ point_size (junction_polygon j) < 3))
     /\ (fst (IsPointInJunction hdmap flags p id0) = true <->
         exists j, hd_error js = Some (Some j)
                   /\ 3 <= point_size (junction_polygon j)
                   /\ IsPointInJunction hdmap flags p id0
                      = (true, junction_id_of j))
     /\ (forall hdmap',
           hd_error (GetJunctions hdmap' q r) = hd_error js ->
           IsPointInJunction hdmap' flags p id0
           = IsPointInJunction hdmap flags p id0))
    /\
    ((fst (IsPointInPNCJunction hdmap flags p id0) = false <->
      (ps = [] \/ hd_error ps = Some None \/
       exists j, hd_error ps = Some (Some j)
                 /\ point_size (pnc_junction_polygon j) < 3))
     /\ (fst (IsPointInPNCJunction hdmap flags p id0) = true <->
         exists j, hd_error ps = Some (Some j)
                   /\ 3 <= point_size (pnc_junction_polygon j)
                   /\ IsPointInPNCJunction hdmap flags p id0
                      = (true, pnc_junction_id_of j))
     /\ (forall hdmap',
           hd_error (GetPNCJunctions hdmap' q r) = hd_error ps ->
           IsPointInPNCJunction hdmap' flags p id0
           = IsPointInPNCJunction hdmap flags p id0)).
Proof.
  intros hdmap flags p id0 q r js ps. split.
  - rewrite IsPointInJunction_head. fold q r js.
    split; [ | split].
    + destruct js as [ | [j | ] rest]; cbn [hd_error].
      * split; auto.
      * destruct (Z.geb_spec (point_size (junction_polygon j)) 3) as [Hsz | Hsz]; cbn [fst].
        -- split; [discriminate | ].
           intros [H | [H | (j' & H & Hlt)]]; try discriminate.
           injection H as <-. lia.
        -- split; auto. intros _. right. right. exists j. split; [easy | lia].
      * split; auto.
    + destruct js as [ | [j | ] rest]; cbn [hd_error].
      * split; [discriminate | intros (j & H & _); discriminate].
      * destruct (Z.geb_spec (point_size (junction_polygon j)) 3) as [Hsz | Hsz]; cbn [fst].
        -- split; auto. intros _. exists j. repeat split; auto.
        -- split; [discriminate | ].
           intros (j' & H & Hge & _). injection H as <-. lia.
      * split; [discriminate | intros (j & H & _); discriminate].
    + intros hdmap' Hhd. rewrite IsPointInJunction_head. fold q r.
      now rewrite Hhd.
  - rewrite IsPointInPNCJunction_head. fold q r ps.
    split; [ | split].
    + destruct ps as [ | [j | ] rest]; cbn [hd_error].
      * split; auto.
      * destruct (Z.geb_spec (point_size (pnc_junction_polygon j)) 3) as [Hsz | Hsz];
          cbn [fst].
        -- split; [discriminate | ].
           intros [H | [H | (j' & H & Hlt)]]; try discriminate.
           injection H as <-. lia.
        -- split; auto. intros _. right. right. exists j. split; [easy | lia].
      * split; auto.
    + destruct ps as [ | [j | ] rest]; cbn [hd_error].
      * split; [discriminate | intros (j & H & _); discriminate].
      * destruct (Z.geb_spec (point_size (pnc_junction_polygon j)) 3) as [Hsz | Hsz];
          cbn [fst].
        -- split; auto. intros _. exists j. repeat split; auto.
        -- split; [discriminate | ].
           intros (j' & H & Hge & _). injection H as <-. lia.
      * split; [discriminate | intros (j & H & _); discriminate].
    + intros hdmap' Hhd. rewrite IsPointInPNCJunction_head. fold q r.
      now rewrite Hhd.
Qed.

(** ** The scanner *)

Section Scanner.

Variable hdmap : HDMap.
Variable flags : Flags.

Local Abbreviation scan := (scan_points hdmap flags).
Local Abbreviation beyond := (beyond_search_distance flags).
Local Abbreviation in_plain := (in_junction hdmap flags).
Local Abbreviation plain_id := (junction_id_at hdmap flags).
Local Abbreviation in_pnc := (in_pnc_junction hdmap flags).
Local Abbreviation pnc_id := (pnc_junction_id_at hdmap flags).
Local Abbreviation skipped := (passed_over hdmap flags).

Lemma hd_split (tp : TrajectoryPoint) pre post :
  hd tp (pre ++ tp :: post) = hd tp pre.
Proof. destruct pre; reflexivity. Qed.

Lemma examined_walked_snoc pre tp w :
  examined (note_examined (walked pre w) (path_point tp))
  = examined w ++ map path_point pre ++ [path_point tp].
Proof. cbn. now rewrite <- app_assoc. Qed.

(** C2. Take any trajectory whose points before [tp] were all examined
    and matched neither kind, with [tp] itself within the guard and
    matching a PNC junction.  Then the scan returns PNC_JUNCTION with
    that junction's id and the distance [s tp - s first]; whether [tp]
    also matches a plain junction changes nothing in the result.  The
    hysteresis variable becomes the plain junction's id when [tp] also
    matched one and is emptied otherwise.  [tp] is the last point
    examined: nothing after it is looked at. *)
Theorem pnc_match_is_decisive traj pre tp post type w :
  trajectory_point traj = pre ++ tp :: post ->
  Forall skipped pre ->
  beyond (path_point tp) = false ->
  in_pnc (path_point tp) = true ->
  let p := path_point tp in
  let first := hd tp (trajectory_point traj) in
  GetNearestJunction hdmap flags traj type w =
  Done ({| out_id := pnc_id p;
           out_type := Some PNC_JUNCTION;
           out_distance := Double.sub (s p) (s (path_point first)) |},
        {| overlapping_junction_id :=
             if in_plain p then plain_id p else "";
           log := log w;
           examined := examined w ++ map path_point pre ++ [p] |}).
Proof.
  intros Hsplit Hpre Hb Hp p first.
  rewrite (GetNearestJunction_split _ _ _ _ _ _ _ _ Hsplit Hpre).
  rewrite scan_points_cons. cbv zeta. rewrite Hb, Hp.
  subst first. rewrite Hsplit, hd_split.
  unfold set_overlapping. rewrite examined_walked_snoc. reflexivity.
Qed.

(** The run of [GetNearestJunction] up to a first match that is a plain
    junction only. *)
Lemma GetNearestJunction_plain_only traj pre tp post type w :
  trajectory_point traj = pre ++ tp :: post ->
  Forall skipped pre ->
  beyond (path_point tp) = false ->
  in_pnc (path_point tp) = false ->
  in_plain (path_point tp) = true ->
  let p := path_point tp in
  let first := hd tp (trajectory_point traj) in
  let stored :=
    match pre with [] => overlapping_junction_id w | _ :: _ => "" end in
  GetNearestJunction hdmap flags traj type w =
  Done (if String.eqb (plain_id p) stored
        then no_junction_found type
        else {| out_id := plain_id p;
                out_type := Some JUNCTION;
                out_distance := Double.sub (s p) (s (path_point first)) |},
        {| overlapping_junction_id := stored;
           log := log w;
           examined := examined w ++ map path_point pre ++ [p] |}).
Proof.
  intros Hsplit Hpre Hb Hp Hj p first stored.
  rewrite (GetNearestJunction_split _ _ _ _ _ _ _ _ Hsplit Hpre).
  rewrite scan_points_cons. cbv zeta. rewrite Hb, Hp, Hj.
  subst first. rewrite Hsplit, hd_split.
  change (overlapping_junction_id (walked pre w)) with stored.
  fold p.
  assert (Hw : note_examined (walked pre w) p
               = {| overlapping_junction_id := stored;
                    log := log w;
                    examined := examined w ++ map path_point pre ++ [p] |}).
  { unfold note_examined, walked.
    cbn [examined log overlapping_junction_id].
    rewrite <- app_assoc. reflexivity. }
  rewrite Hw. destruct (String.eqb (plain_id p) stored); reflexivity.
Qed.

(** C3. Take any trajectory whose points before [tp] were all examined
    and matched neither kind, with [tp] within the guard and matching a
    plain junction but no PNC junction.  The scan stops at [tp].  If the
    plain junction's id equals the hysteresis variable as it stands when
    [tp] is reached, nothing is emitted (empty id, distance -1, type
    untouched); otherwise the scan returns JUNCTION with that id and the
    distance [s tp - s first].  In both cases the hysteresis variable
    keeps the value it had when [tp] was reached. *)
Theorem plain_match_is_decisive traj pre tp post type w :
  trajectory_point traj = pre ++ tp :: post ->
  Forall skipped pre ->
  beyond (path_point tp) = false ->
  in_pnc (path_point tp) = false ->
  in_plain (path_point tp) = true ->
  let p := path_point tp in
  let first := hd tp (trajectory_point traj) in
  let stored :=
    match pre with [] => overlapping_junction_id w | _ :: _ => "" end in
  GetNearestJunction hdmap flags traj type w =
  Done (if String.eqb (plain_id p) stored
        then no_junction_found type
        else {| out_id := plain_id p;
                out_type := Some JUNCTION;
                out_distance := Double.sub (s p) (s (path_point first)) |},
        {| overlapping_junction_id := stored;
           log := log w;
           examined := examined w ++ map path_point pre ++ [p] |}).
Proof.
  intros Hsplit Hpre Hb Hp Hj.
  exact (GetNearestJunction_plain_only traj pre tp post type w
           Hsplit Hpre Hb Hp Hj).
Qed.


(** C5. When the loop ends without a decisive point -- every point was
    examined and matched neither kind, or the loop met a point beyond the
    guard before any match, or the first match was a plain junction
    suppressed by hysteresis -- the scan hands back the empty id and the
    distance -1, which is negative. *)
Theorem no_decisive_point_no_junction traj pre stop type w :
  trajectory_point traj = pre ++ stop ->
  trajectory_point traj <> [] ->
  Forall skipped pre ->
  (stop = []
   \/ (exists tq post, stop = tq :: post /\ beyond (path_point tq) = true)
   \/ (exists tq post,
         stop = tq :: post
         /\ beyond (path_point tq) = false
         /\ in_pnc (path_point tq) = false
         /\ in_plain (path_point tq) = true
         /\ plain_id (path_point tq)
            = overlapping_junction_id (walked pre w))) ->
  exists out w',
    GetNearestJunction hdmap flags traj type w = Done (out, w')
    /\ out_id out = ""
    /\ out_distance out = Double.of_Z (-1)
    /\ Double.lt (out_distance out) Double.zero = true
    /\ Double.ge (out_distance out) Double.zero = false.
Proof.
  intros Hsplit Hne Hpre Hstop.
  assert (Hrun : GetNearestJunction hdmap flags traj type w
                 = Done (scan (s (path_point (hd (at_ 0 0)
                                                (trajectory_point traj))))
                           stop (no_junction_found type) (walked pre w))).
  { unfold GetNearestJunction.
    destruct (trajectory_point traj) as [ | first l] eqn:E; [congruence | ].
    cbn [hd]. rewrite Hsplit. now rewrite scan_points_walk. }
  rewrite Hrun.
  destruct Hstop as [-> | [(tq & post & -> & Hb)
                          | (tq & post & -> & Hb & Hp & Hj & Hid)]].
  - eexists _, _. split; [reflexivity | ]. repeat split.
  - rewrite scan_points_cons. cbv zeta. rewrite Hb.
    eexists _, _. split; [reflexivity | ]. repeat split.
  - rewrite scan_points_cons. cbv zeta. rewrite Hb, Hp, Hj, Hid.
    rewrite String.eqb_refl. cbn [negb].
    eexists _, _. split; [reflexivity | ]. repeat split.
Qed.

End Scanner.

(** ** The search-distance guard *)

Section Guard.

Variable hdmap : HDMap.
Variable flags : Flags.

Local Abbreviation scan := (scan_points hdmap flags).
Local Abbreviation beyond := (beyond_search_distance flags).
Local Abbreviation skipped := (passed_over hdmap flags).

(** C1 (amended). The guard compares the arc length [s] of a point itself,
    not its offset from the first point, with the search distance.  A
    point whose [s] equals the search distance passes the guard.  When
    the loop reaches a point [tp] (everything before it was examined and
    matched neither kind): if [s tp] strictly exceeds the search
    distance the scan stops there with "no junction found", having
    examined exactly the points before [tp]; otherwise [tp] is examined,
    and whatever is examined after it is a run of points of the
    trajectory that each pass the guard. *)
Theorem search_cutoff_on_arc_length traj pre tp post type w :
  trajectory_point traj = pre ++ tp :: post ->
  Forall skipped pre ->
  (forall a b,
     beyond {| x := a; y := b;
               s := FLAGS_adc_trajectory_search_distance flags |} = false)
  /\ (if beyond (path_point tp)
      then GetNearestJunction hdmap flags traj type w
           = Done (no_junction_found type, walked pre w)
      else exists out w' more rest,
             GetNearestJunction hdmap flags traj type w = Done (out, w')
             /\ post = more ++ rest
             /\ examined w'
                = examined w ++ map path_point (pre ++ tp :: more)
             /\ Forall (fun t => beyond (path_point t) = false) more).
Proof.
  intros Hsplit Hpre. split.
  { intros a b. apply gt_irrefl. }
  rewrite (GetNearestJunction_split _ _ _ _ _ _ _ _ Hsplit Hpre).
  rewrite scan_points_cons. cbv zeta.
  destruct (beyond (path_point tp)) eqn:Hb; [reflexivity | ].
  assert (Hex : forall ov,
            examined (set_overlapping
                        (note_examined (walked pre w) (path_point tp)) ov)
            = examined w ++ map path_point (pre ++ [tp])).
  { intros ov. cbn. now rewrite map_app, <- app_assoc. }
  assert (Hstop : forall (o : Outputs) ov,
    exists out w' more rest,
      Done (o, set_overlapping
                 (note_examined (walked pre w) (path_point tp)) ov)
      = Done (out, w')
      /\ post = more ++ rest
      /\ examined w' = examined w ++ map path_point (pre ++ tp :: more)
      /\ Forall (fun t => beyond (path_point t) = false) more).
  { intros o ov. eexists o, _, [], post.
    split; [reflexivity | ]. repeat split; auto. }
  assert (Hstop' : forall (o : Outputs),
    exists out w' more rest,
      Done (o, note_examined (walked pre w) (path_point tp)) = Done (out, w')
      /\ post = more ++ rest
      /\ examined w' = examined w ++ map path_point (pre ++ tp :: more)
      /\ Forall (fun t => beyond (path_point t) = false) more).
  { intros o. eexists o, _, [], post.
    split; [reflexivity | ]. repeat split; auto.
    cbn. now rewrite map_app, <- app_assoc. }
  destruct (in_pnc_junction hdmap flags (path_point tp)); [apply Hstop | ].
  destruct (in_junction hdmap flags (path_point tp)).
  { destruct (negb _); apply Hstop'. }
  set (w2 := set_overlapping
               (note_examined (walked pre w) (path_point tp)) "").
  destruct (scan_points_examined hdmap flags
              (s (path_point (hd tp pre))) post
              (no_junction_found type) w2)
    as (seen & rest & Hpost & Hseen & Hall).
  destruct (scan _ post _ w2) as [o w'] eqn:E. cbn [snd] in Hseen.
  exists o, w', seen, rest. repeat split; auto.
  rewrite Hseen. subst w2. rewrite Hex.
  rewrite <- app_assoc, <- map_app, <- app_assoc. reflexivity.
Qed.

End Guard.

(** ** The controller *)

Section Controller.

Variable hdmap : HDMap.
Variable flags : Flags.

Local Abbreviation scan := (scan_points hdmap flags).
Local Abbreviation beyond := (beyond_search_distance flags).
Local Abbreviation in_plain := (in_junction hdmap flags).
Local Abbreviation plain_id := (junction_id_at hdmap flags).
Local Abbreviation in_pnc := (in_pnc_junction hdmap flags).
Local Abbreviation pnc_id := (pnc_junction_id_at hdmap flags).
Local Abbreviation skipped := (passed_over hdmap flags).
Local Abbreviation enter := (AINFO "Enter CloseToJunction story").
Local Abbreviation leave := (AINFO "Exit CloseToJunction story").
Local Abbreviation not_ready := (AERROR "Planning trajectory not ready.").

(** The scan reads the world only through the static. *)
Lemma scan_points_static s_start points out w v :
  same_static w v ->
  fst (scan s_start points out w) = fst (scan s_start points out v)
  /\ same_static (snd (scan s_start points out w))
                 (snd (scan s_start points out v)).
Proof.
  revert w v. induction points as [ | tp points IH]; intros w v Hwv.
  - cbn. auto.
  - rewrite !scan_points_cons. cbv zeta.
    destruct (beyond _); [auto | ].
    destruct (in_pnc _); [split; reflexivity | ].
    destruct (in_plain _).
    + unfold same_static in Hwv. rewrite Hwv.
      destruct (negb _); split; auto.
    + apply IH. reflexivity.
Qed.

(** The scan never logs. *)
Lemma scan_points_log s_start points out w :
  log (snd (scan s_start points out w)) = log w.
Proof.
  revert w. induction points as [ | tp points IH]; intros w.
  - reflexivity.
  - rewrite scan_points_cons. cbv zeta.
    destruct (beyond _); [reflexivity | ].
    destruct (in_pnc _); [reflexivity | ].
    destruct (in_plain _).
    + destruct (negb _); reflexivity.
    + now rewrite IH.
Qed.

(** Scanning the same points again, from the static the first scan left
    behind, reproduces outputs and static. *)
Lemma scan_points_again s_start points out w v :
  same_static (snd (scan s_start points out w)) v ->
  fst (scan s_start points out v) = fst (scan s_start points out w)
  /\ same_static (snd (scan s_start points out v)) v.
Proof.
  destruct points as [ | tp points].
  - cbn. intros _. split; reflexivity.
  - rewrite !scan_points_cons. cbv zeta.
    destruct (beyond _); [intros _; split; reflexivity | ].
    destruct (in_pnc _).
    { intros H. split; [reflexivity | exact H]. }
    destruct (in_plain _).
    + intros H.
      assert (Hwv : overlapping_junction_id w = overlapping_junction_id v).
      { destruct (negb _); exact H. }
      rewrite <- Hwv. destruct (negb _); split; reflexivity.
    + intros H.
      destruct (scan_points_static s_start points out
                  (set_overlapping (note_examined v (path_point tp)) "")
                  (set_overlapping (note_examined w (path_point tp)) "")
                  eq_refl) as [Hfst Hsnd].
      split; [exact Hfst | ].
      unfold same_static in *. now rewrite Hsnd.
Qed.

(** Either the loop assigned nothing, or it left through an assigning
    branch at some point. *)
Lemma scan_points_outcome s_start points out w :
  fst (scan s_start points out w) = out
  \/ exists pre tp post,
       points = pre ++ tp :: post
       /\ decided_at hdmap flags pre tp s_start
            (overlapping_junction_id (walked pre w))
            (fst (scan s_start points out w)).
Proof.
  revert w. induction points as [ | tp points IH]; intros w.
  - left. reflexivity.
  - rewrite scan_points_cons. cbv zeta.
    destruct (beyond (path_point tp)) eqn:Hb; [now left | ].
    destruct (in_pnc (path_point tp)) eqn:Hp.
    { right. exists [], tp, points. split; [reflexivity | ].
      unfold decided_at. cbv zeta. repeat split; auto. }
    destruct (in_plain (path_point tp)) eqn:Hj.
    { destruct (String.eqb_spec (plain_id (path_point tp))
                  (overlapping_junction_id w)) as [E | N]; cbn [negb].
      - now left.
      - right. exists [], tp, points. split; [reflexivity | ].
        unfold decided_at. cbv zeta. split; [constructor | ].
        split; [exact Hb | ]. split; [reflexivity | ].
        right. repeat split; auto. }
    destruct (IH (set_overlapping (note_examined w (path_point tp)) ""))
      as [Hsame | (pre & tq & post & -> & Hpre & Hbq & Hd & Hcase)].
    + now left.
    + right. exists (tp :: pre), tq, post. split; [reflexivity | ].
      rewrite walked_cons in Hcase.
      unfold decided_at. cbv zeta.
      split; [constructor; [repeat split; assumption | exact Hpre] | ].
      split; [exact Hbq | ]. split; [exact Hd | exact Hcase].
Qed.

Lemma GetNearestJunction_outcome traj type w :
  trajectory_point traj <> [] ->
  exists out w1,
    GetNearestJunction hdmap flags traj type w = Done (out, w1)
    /\ log w1 = log w
    /\ (out = no_junction_found type
        \/ exists pre tp post,
             trajectory_point traj = pre ++ tp :: post
             /\ decided_at hdmap flags pre tp
                  (arc_length (hd tp (trajectory_point traj)))
                  (overlapping_junction_id (walked pre w)) out).
Proof.
  intros Hne. unfold GetNearestJunction.
  destruct (trajectory_point traj) as [ | first rest] eqn:E; [congruence | ].
  set (r := scan (s (path_point first)) (first :: rest)
              {| out_id := ""; out_type := type;
                 out_distance := Double.of_Z (-1) |} w).
  exists (fst r), (snd r). split; [now destruct r | ].
  split; [apply scan_points_log | ].
  destruct (scan_points_outcome (s (path_point first)) (first :: rest)
              {| out_id := ""; out_type := type;
                 out_distance := Double.of_Z (-1) |} w)
    as [Hsame | (pre & tp & post & Hsplit & Hd)].
  - left. exact Hsame.
  - right. exists pre, tp, post. split; [exact Hsplit | exact Hd].
Qed.

(** When the distance handed back is [>= 0], the type was assigned. *)
Lemma GetNearestJunction_type traj w out w1 :
  GetNearestJunction hdmap flags traj None w = Done (out, w1) ->
  Double.ge (out_distance out) Double.zero = true ->
  exists ty, out_type out = Some ty.
Proof.
  intros Hrun Hge.
  assert (Hne : trajectory_point traj <> []).
  { unfold GetNearestJunction in Hrun.
    destruct (trajectory_point traj); [discriminate | discriminate]. }
  destruct (GetNearestJunction_outcome traj None w Hne)
    as (out' & w1' & Hrun' & _ & Hcase).
  rewrite Hrun in Hrun'. injection Hrun' as <- <-.
  destruct Hcase as [-> | (pre & tp & post & _ & _ & _ & _ & Hcase)].
  - discriminate Hge.
  - destruct Hcase as [(_ & Hty & _) | (_ & _ & _ & Hty & _)]; eauto.
Qed.

(** [Update] in terms of what the scan handed back. *)
Lemma Update_after_scan traj stories w out w1 :
  GetNearestJunction hdmap flags traj None w = Done (out, w1) ->
  (Double.ge (out_distance out) Double.zero = true
   /\ exists ty,
        out_type out = Some ty
        /\ Update hdmap flags (Some traj) stories w
           = Done (story_of out ty,
                   if has_close_to_junction stories then w1
                   else emit w1 enter))
  \/ (Double.ge (out_distance out) Double.zero = false
      /\ Update hdmap flags (Some traj) stories w
         = Done (no_story,
                 if has_close_to_junction stories then emit w1 leave
                 else w1)).
Proof.
  intros Hrun.
  assert (Hne : trajectory_point traj <> []).
  { unfold GetNearestJunction in Hrun.
    destruct (trajectory_point traj); [discriminate | discriminate]. }
  unfold Update.
  destruct (trajectory_point traj) as [ | first rest] eqn:E; [congruence | ].
  rewrite Hrun. cbn [bind].
  destruct (Double.ge (out_distance out) Double.zero) eqn:Hge.
  - left. split; [reflexivity | ].
    destruct (GetNearestJunction_type traj w out w1 Hrun Hge) as [ty Hty].
    exists ty. split; [exact Hty | ]. rewrite Hty.
    destruct (has_close_to_junction stories); reflexivity.
  - right. split; [reflexivity | ].
    destruct stories as [[c | ]]; reflexivity.
Qed.

Lemma GetNearestJunction_again traj type w out ws v :
  GetNearestJunction hdmap flags traj type w = Done (out, ws) ->
  same_static ws v ->
  exists vs,
    GetNearestJunction hdmap flags traj type v = Done (out, vs)
    /\ same_static vs v.
Proof.
  unfold GetNearestJunction.
  destruct (trajectory_point traj) as [ | first rest]; [discriminate | ].
  intros Hrun Hws.
  pose proof (scan_points_again (s (path_point first)) (first :: rest)
                {| out_id := ""; out_type := type;
                   out_distance := Double.of_Z (-1) |} w v) as Hagain.
  cbv zeta in Hrun |- *.
  destruct (scan _ _ _ w) as [o ws'].
  assert (o = out /\ ws' = ws) as [-> ->] by (split; congruence).
  cbn [fst snd] in Hagain.
  destruct (Hagain Hws) as [Hfst Hsnd].
  destruct (scan _ _ _ v) as [o vs]. cbn [fst snd] in *. subst o.
  exists vs. split; [reflexivity | exact Hsnd].
Qed.

Lemma Update_total trajectory stories w :
  exists stories' w', Update hdmap flags trajectory stories w
                      = Done (stories', w').
Proof.
  destruct trajectory as [traj | ]; [ | cbn; eauto].
  destruct (trajectory_point traj) as [ | first rest] eqn:E.
  { unfold Update. rewrite E. eauto. }
  assert (Hne : trajectory_point traj <> []) by congruence.
  destruct (GetNearestJunction_outcome traj None w Hne)
    as (out & w1 & Hrun & _).
  destruct (Update_after_scan traj stories w out w1 Hrun)
    as [(_ & ty & _ & ->) | (_ & ->)]; eauto.
Qed.

(** One more [Update] with the same snapshot leaves the record as the
    previous one made it, whatever was logged in between. *)
Lemma Update_twice trajectory stories w stories1 w1 :
  Update hdmap flags trajectory stories w = Done (stories1, w1) ->
  forall v, same_static w1 v ->
  exists v', Update hdmap flags trajectory stories1 v = Done (stories1, v')
             /\ same_static v' v.
Proof.
  intros Hfirst v Hv.
  destruct trajectory as [traj | ].
  2:{ cbn in Hfirst. injection Hfirst as <- <-.
      eexists. split; reflexivity. }
  destruct (trajectory_point traj) as [ | first rest] eqn:E.
  { unfold Update in *. rewrite E in *. injection Hfirst as <- <-.
    eexists. split; reflexivity. }
  assert (Hne : trajectory_point traj <> []) by congruence.
  destruct (GetNearestJunction_outcome traj None w Hne)
    as (out & ws & Hrun & _).
  assert (Hstatic : same_static w1 ws /\
                    ((Double.ge (out_distance out) Double.zero = true
                      /\ exists ty, out_type out = Some ty
                                    /\ stories1 = story_of out ty)
                     \/ (Double.ge (out_distance out) Double.zero = false
                         /\ stories1 = no_story))).
  { destruct (Update_after_scan traj stories w out ws Hrun)
      as [(Hge & ty & Hty & Hup) | (Hge & Hup)];
      rewrite Hup in Hfirst; injection Hfirst as <- <-;
      (split; [destruct (has_close_to_junction stories); reflexivity | ]).
    - left. eauto.
    - right. auto. }
  destruct Hstatic as [Hw1 Hstory].
  assert (Hws : same_static ws v).
  { unfold same_static in *. congruence. }
  destruct (GetNearestJunction_again traj None w out ws v Hrun Hws)
    as (vs & Hrun' & Hvs).
  destruct (Update_after_scan traj stories1 v out vs Hrun')
    as [(Hge & ty & Hty & Hup) | (Hge & Hup)]; rewrite Hup.
  - destruct Hstory as [(_ & ty' & Hty' & ->) | (Hge' & _)];
      [ | congruence].
    assert (ty' = ty) by congruence. subst ty'.
    eexists. split; [reflexivity | ].
    destruct (has_close_to_junction _); exact Hvs.
  - destruct Hstory as [(Hge' & _) | (_ & ->)]; [congruence | ].
    eexists. split; [reflexivity | ].
    destruct (has_close_to_junction _); exact Hvs.
Qed.

Lemma Update_cycles_stable trajectory stories1 stored :
  (forall v, overlapping_junction_id v = stored ->
     exists v',
       Update hdmap flags trajectory stories1 v = Done (stories1, v')
       /\ overlapping_junction_id v' = stored) ->
  forall n v, overlapping_junction_id v = stored ->
  exists vn,
    Update_cycles hdmap flags (repeat trajectory n) stories1 v
    = Done (repeat stories1 n, vn).
Proof.
  intros Hstable. induction n as [ | n IH]; intros v Hv.
  - cbn. eauto.
  - cbn [repeat Update_cycles].
    destruct (Hstable v Hv) as (v' & -> & Hv'). cbv beta iota delta [bind].
    destruct (IH v' Hv') as (vn & ->). eauto.
Qed.

(** C6. One cycle of [Update], for whatever the scan of that cycle hands
    back: with a distance [>= 0] the record is present afterwards and
    carries the id, kind and distance of this scan, and "Enter" is logged
    exactly when the record was absent before; with a negative distance
    the record is absent afterwards, and "Exit" is logged exactly when
    it was present before (nothing happens when it was absent).  For
    four successive cycles whose scans hand back the distances -1, 5,
    3, -1, starting without a record: absent; present with distance 5
    and "Enter" logged; present with distance 3 and nothing logged;
    absent and "Exit" logged. *)
Theorem story_lifecycle :
  (forall traj stories w out w1,
     GetNearestJunction hdmap flags traj None w = Done (out, w1) ->
     (Double.ge (out_distance out) Double.zero = true ->
      exists ty,
        out_type out = Some ty
        /\ Update hdmap flags (Some traj) stories w
           = Done ({| close_to_junction :=
                        Some {| story_id := out_id out;
                                story_type := ty;
                                story_distance := out_distance out |} |},
                   if has_close_to_junction stories then w1
                   else emit w1 enter))
     /\ (Double.lt (out_distance out) Double.zero = true ->
         Update hdmap flags (Some traj) stories w
         = Done ({| close_to_junction := None |},
                 if has_close_to_junction stories then emit w1 leave
                 else w1)))
  /\ (forall t1 t2 t3 t4 w0 o1 o2 o3 o4 v1 v2 v3 v4,
        GetNearestJunction hdmap flags t1 None w0 = Done (o1, v1) ->
        out_distance o1 = Double.of_Z (-1) ->
        GetNearestJunction hdmap flags t2 None v1 = Done (o2, v2) ->
        out_distance o2 = Double.of_Z 5 ->
        GetNearestJunction hdmap flags t3 None (emit v2 enter)
        = Done (o3, v3) ->
        out_distance o3 = Double.of_Z 3 ->
        GetNearestJunction hdmap flags t4 None v3 = Done (o4, v4) ->
        out_distance o4 = Double.of_Z (-1) ->
        exists ty2 ty3,
          let present2 :=
            {| close_to_junction :=
                 Some {| story_id := out_id o2; story_type := ty2;
                         story_distance := Double.of_Z 5 |} |} in
          let present3 :=
            {| close_to_junction :=
                 Some {| story_id := out_id o3; story_type := ty3;
                         story_distance := Double.of_Z 3 |} |} in
          Update hdmap flags (Some t1) no_story w0 = Done (no_story, v1)
          /\ log v1 = log w0
          /\ Update hdmap flags (Some t2) no_story v1
             = Done (present2, emit v2 enter)
          /\ log (emit v2 enter) = log w0 ++ [enter]
          /\ Update hdmap flags (Some t3) present2 (emit v2 enter)
             = Done (present3, v3)
          /\ log v3 = log w0 ++ [enter]
          /\ Update hdmap flags (Some t4) present3 v3
             = Done (no_story, emit v4 leave)
          /\ log (emit v4 leave) = log w0 ++ [enter; leave]
          /\ Update_cycles hdmap flags [Some t1; Some t2; Some t3; Some t4]
               no_story w0
             = Done ([no_story; present2; present3; no_story],
                     emit v4 leave)).
Proof.
  split.
  - intros traj stories w out w1 Hrun. split.
    + intros Hge.
      destruct (Update_after_scan traj stories w out w1 Hrun)
        as [(_ & ty & Hty & Hup) | (Hge' & _)]; [ | congruence].
      exists ty. split; [exact Hty | exact Hup].
    + intros Hlt. apply lt_zero_not_ge in Hlt.
      destruct (Update_after_scan traj stories w out w1 Hrun)
        as [(Hge' & _) | (_ & Hup)]; [congruence | exact Hup].
  - intros t1 t2 t3 t4 w0 o1 o2 o3 o4 v1 v2 v3 v4
           Hr1 Hd1 Hr2 Hd2 Hr3 Hd3 Hr4 Hd4.
    assert (Hlog : forall t w o v,
              GetNearestJunction hdmap flags t None w = Done (o, v) ->
              log v = log w).
    { intros t w o v Hr.
      assert (Hne : trajectory_point t <> []).
      { unfold GetNearestJunction in Hr.
        destruct (trajectory_point t); [discriminate | discriminate]. }
      destruct (GetNearestJunction_outcome t None w Hne)
        as (o' & v' & Hr' & Hl & _).
      rewrite Hr in Hr'. injection Hr' as <- <-. exact Hl. }
    destruct (Update_after_scan t1 no_story w0 o1 v1 Hr1)
      as [(Hge & _) | (_ & Hu1)];
      [rewrite Hd1 in Hge; discriminate Hge | ].
    destruct (Update_after_scan t2 no_story v1 o2 v2 Hr2)
      as [(_ & ty2 & _ & Hu2) | (Hge & _)];
      [ | rewrite Hd2 in Hge; discriminate Hge].
    destruct (Update_after_scan t3 (story_of o2 ty2) (emit v2 enter)
                o3 v3 Hr3)
      as [(_ & ty3 & _ & Hu3) | (Hge & _)];
      [ | rewrite Hd3 in Hge; discriminate Hge].
    destruct (Update_after_scan t4 (story_of o3 ty3) v3 o4 v4 Hr4)
      as [(Hge & _) | (_ & Hu4)];
      [rewrite Hd4 in Hge; discriminate Hge | ].
    unfold story_of in *. rewrite Hd2 in *. rewrite Hd3 in *.
    cbn [has_close_to_junction close_to_junction] in *.
    change (has_close_to_junction no_story) with false in *.
    cbv iota in Hu1, Hu2.
    pose proof (Hlog _ _ _ _ Hr1) as L1.
    pose proof (Hlog _ _ _ _ Hr2) as L2.
    pose proof (Hlog _ _ _ _ Hr3) as L3.
    pose proof (Hlog _ _ _ _ Hr4) as L4.
    exists ty2, ty3. cbv zeta.
    split; [exact Hu1 | ]. split; [exact L1 | ].
    split; [exact Hu2 | ].
    split; [cbn [log emit]; congruence | ].
    split; [exact Hu3 | ].
    split; [rewrite L3; cbn [log emit]; congruence | ].
    split; [exact Hu4 | ].
    split.
    + cbn [log emit]. rewrite L4, L3. cbn [log emit].
      rewrite L2, L1, <- app_assoc. reflexivity.
    + cbn [Update_cycles]. rewrite Hu1. cbv beta iota delta [bind].
      rewrite Hu2. cbv beta iota delta [bind].
      rewrite Hu3. cbv beta iota delta [bind].
      rewrite Hu4. reflexivity.
Qed.

(** C7. Without a trajectory snapshot, or with a snapshot that has no
    point, [Update] runs no scan and returns at once: the story record is
    handed back as it came, the hysteresis variable is untouched, no
    point is examined, and the only effect is the "not ready" error
    message. *)
Theorem update_skipped_without_trajectory stories w :
  Update hdmap flags None stories w = Done (stories, emit w not_ready)
  /\ Update hdmap flags (Some {| trajectory_point := [] |}) stories w
     = Done (stories, emit w not_ready)
  /\ overlapping_junction_id (emit w not_ready) = overlapping_junction_id w
  /\ examined (emit w not_ready) = examined w
  /\ log (emit w not_ready) = log w ++ [not_ready].
Proof. repeat split. Qed.

(** C8. For a fixed trajectory snapshot and a fixed map, with the
    hysteresis variable evolving as the code makes it, every [Update]
    completes and the story record after each of the calls is the record
    the first call left. *)
Theorem update_is_idempotent trajectory stories w n :
  exists stories1 w1 wn,
    Update hdmap flags trajectory stories w = Done (stories1, w1)
    /\ Update_cycles hdmap flags (repeat trajectory (S n)) stories w
       = Done (repeat stories1 (S n), wn).
Proof.
  destruct (Update_total trajectory stories w) as (stories1 & w1 & Hfirst).
  pose proof (Update_twice trajectory stories w stories1 w1 Hfirst) as Htwice.
  destruct (Update_cycles_stable trajectory stories1
              (overlapping_junction_id w1)) with (n := n) (v := w1)
    as (wn & Hn).
  - intros v Hv. destruct (Htwice v (eq_sym Hv)) as (v' & Hup & Hst).
    exists v'. split; [exact Hup | ].
    unfold same_static in Hst. congruence.
  - reflexivity.
  - exists stories1, w1, wn. split; [exact Hfirst | ].
    cbn [repeat Update_cycles]. rewrite Hfirst. cbv beta iota delta [bind].
    rewrite Hn. reflexivity.
Qed.

(** In a well-formed trajectory every offset from the first point is
    [>= 0]. *)
Lemma offset_nonneg traj pre tp post :
  well_formed_trajectory traj ->
  trajectory_point traj = pre ++ tp :: post ->
  Double.ge (Double.sub (arc_length tp)
                        (arc_length (hd tp (trajectory_point traj))))
            Double.zero = true.
Proof.
  intros [Hok Hsorted] Hsplit.
  destruct (trajectory_point traj) as [ | first rest] eqn:E.
  { destruct pre; discriminate Hsplit. }
  cbn [hd].
  pose proof (first_point_is_least first rest Hok Hsorted) as Hleast.
  assert (Hin : In tp (first :: rest)).
  { rewrite Hsplit. apply in_or_app. right. left. reflexivity. }
  rewrite Forall_forall in Hok, Hleast.
  destruct (Hok tp Hin) as [Vtp Ftp].
  destruct (Hok first (or_introl eq_refl)) as [Vf Ff].
  apply sub_nonneg; auto. apply Hleast, Hin.
Qed.

(** C10 (amended). In every cycle that has a non-empty trajectory the
    scan completes and so does [Update].  The scan either assigns
    nothing -- the type is left as it came (uninitialised), the id is
    empty and the distance is -1 -- or it leaves through an assigning
    branch (PNC match, or plain match not suppressed), where type and
    distance are set together, the distance being [s - s_start] of the
    deciding point.  That distance is [>= 0] when the arc lengths are as
    in the data model (proper finite binary64 values, non-decreasing
    along the trajectory); the code does not check it, and otherwise it
    can be negative.  [Update] looks at the type only when the distance
    is [>= 0], and then the type has been assigned in this very scan:
    the record written carries JUNCTION or PNC_JUNCTION as produced by
    this cycle's scan, and the read of an uninitialised type never
    happens. *)
Theorem type_read_only_when_assigned traj stories w :
  trajectory_point traj <> [] ->
  exists out w1 stories' w',
    GetNearestJunction hdmap flags traj None w = Done (out, w1)
    /\ Update hdmap flags (Some traj) stories w = Done (stories', w')
    /\ ((out = no_junction_found None /\ out_type out = None)
        \/ (exists pre tp post,
              trajectory_point traj = pre ++ tp :: post
              /\ decided_at hdmap flags pre tp
                   (arc_length (hd tp (trajectory_point traj)))
                   (overlapping_junction_id (walked pre w)) out))
    /\ (well_formed_trajectory traj ->
        out_type out <> None ->
        Double.ge (out_distance out) Double.zero = true)
    /\ (Double.ge (out_distance out) Double.zero = true ->
        exists ty,
          out_type out = Some ty
          /\ (ty = JUNCTION \/ ty = PNC_JUNCTION)
          /\ close_to_junction stories'
             = Some {| story_id := out_id out;
                       story_type := ty;
                       story_distance := out_distance out |})
    /\ (Double.ge (out_distance out) Double.zero = false ->
        close_to_junction stories' = None).
Proof.
  intros Hne.
  destruct (GetNearestJunction_outcome traj None w Hne)
    as (out & w1 & Hrun & _ & Hcase).
  destruct (Update_total (Some traj) stories w) as (stories' & w' & Hup).
  exists out, w1, stories', w'.
  split; [exact Hrun | ]. split; [exact Hup | ].
  split; [ | split; [ | split]].
  - destruct Hcase as [-> | Hdec]; [left; split; reflexivity | right; exact Hdec].
  - intros Hwf Hty.
    destruct Hcase as [-> | (pre & tp & post & Hsplit & _ & _ & Hd & _)].
    + now elim Hty.
    + rewrite Hd. exact (offset_nonneg traj pre tp post Hwf Hsplit).
  - intros Hge.
    destruct (Update_after_scan traj stories w out w1 Hrun)
      as [(_ & ty & Hty & Hup') | (Hge' & _)]; [ | congruence].
    rewrite Hup in Hup'. injection Hup' as -> _.
    exists ty. split; [exact Hty | ].
    split; [destruct ty; auto | reflexivity].
  - intros Hge.
    destruct (Update_after_scan traj stories w out w1 Hrun)
      as [(Hge' & _) | (_ & Hup')]; [congruence | ].
    rewrite Hup in Hup'. injection Hup' as -> _. reflexivity.
Qed.

End Controller.

(** ** Concrete runs on the toy map *)

(** C1, as stated, fails.  With a search distance of 100: a trajectory
    whose only point has [s = 110] and lies in PNC junction "P" has
    offset 0 from the start, yet the point is not examined and no
    junction is reported; and in the trajectory [s = -50], [s = 90] the
    second point has offset 140, beyond the search distance, yet it is
    examined and reported with distance 140. *)
Lemma offset_cutoff_counterexample :
  (let tp := at_ 1 110 in
   Double.gt (Double.sub (arc_length tp) (arc_length tp))
             (FLAGS_adc_trajectory_search_distance toy_flags) = false
   /\ in_pnc_junction toy_map toy_flags (path_point tp) = true
   /\ GetNearestJunction toy_map toy_flags (trajectory_of [tp]) None
        fresh_world
      = Done (no_junction_found None, fresh_world))
  /\ (let first := at_ 0 (-50) in
      let tq := at_ 1 90 in
      Double.gt (Double.sub (arc_length tq) (arc_length first))
                (FLAGS_adc_trajectory_search_distance toy_flags) = true
      /\ GetNearestJunction toy_map toy_flags (trajectory_of [first; tq])
           None fresh_world
         = Done ({| out_id := "P";
                    out_type := Some PNC_JUNCTION;
                    out_distance := Double.of_Z 140 |},
                 {| overlapping_junction_id := "";
                    log := [];
                    examined := [path_point first; path_point tq] |})).
Proof. vm_compute. repeat split. Qed.

Lemma search_cutoff_on_arc_length_witness :
  let traj := trajectory_of [at_ 0 0; at_ 0 100; at_ 1 101] in
  Double.gt (arc_length (at_ 0 100))
            (FLAGS_adc_trajectory_search_distance toy_flags) = false
  /\ exists out w' more rest,
       GetNearestJunction toy_map toy_flags traj None fresh_world
       = Done (out, w')
       /\ [at_ 1 101] = more ++ rest
       /\ examined w'
          = examined fresh_world
            ++ map path_point ([at_ 0 0] ++ at_ 0 100 :: more)
       /\ Forall (fun t => beyond_search_distance toy_flags (path_point t)
                           = false) more.
Proof.
  intros traj. split; [reflexivity | ].
  assert (Hpre : Forall (passed_over toy_map toy_flags) [at_ 0 0]).
  { repeat constructor. }
  exact (proj2 (search_cutoff_on_arc_length toy_map toy_flags traj
                  [at_ 0 0] (at_ 0 100) [at_ 1 101] None fresh_world
                  eq_refl Hpre)).
Defined.

Lemma pnc_match_is_decisive_witness :
  GetNearestJunction toy_map toy_flags
    (trajectory_of [at_ 0 0; at_ 3 5; at_ 2 7]) None fresh_world
  = Done ({| out_id := "P";
             out_type := Some PNC_JUNCTION;
             out_distance := Double.of_Z 5 |},
          {| overlapping_junction_id := "A";
             log := [];
             examined := [path_point (at_ 0 0); path_point (at_ 3 5)] |}).
Proof.
  assert (Hpre : Forall (passed_over toy_map toy_flags) [at_ 0 0]).
  { repeat constructor. }
  exact (pnc_match_is_decisive toy_map toy_flags
           (trajectory_of [at_ 0 0; at_ 3 5; at_ 2 7])
           [at_ 0 0] (at_ 3 5) [at_ 2 7] None fresh_world
           eq_refl Hpre eq_refl eq_refl).
Defined.

Lemma plain_match_is_decisive_witness :
  GetNearestJunction toy_map toy_flags
    (trajectory_of [at_ 2 5; at_ 1 7]) None (world_with "A")
  = Done (no_junction_found None,
          {| overlapping_junction_id := "A";
             log := [];
             examined := [path_point (at_ 2 5)] |}).
Proof.
  exact (plain_match_is_decisive toy_map toy_flags
           (trajectory_of [at_ 2 5; at_ 1 7])
           [] (at_ 2 5) [at_ 1 7] None (world_with "A")
           eq_refl (Forall_nil _) eq_refl eq_refl eq_refl).
Defined.


Lemma no_decisive_point_no_junction_witness :
  exists out w',
    GetNearestJunction toy_map toy_flags
      (trajectory_of [at_ 0 0; at_ 0 50; at_ 1 101]) None fresh_world
    = Done (out, w')
    /\ out_id out = ""
    /\ out_distance out = Double.of_Z (-1)
    /\ Double.lt (out_distance out) Double.zero = true
    /\ Double.ge (out_distance out) Double.zero = false.
Proof.
  assert (Hpre : Forall (passed_over toy_map toy_flags)
                   [at_ 0 0; at_ 0 50]).
  { repeat constructor. }
  assert (Hne : trajectory_point
                  (trajectory_of [at_ 0 0; at_ 0 50; at_ 1 101]) <> [])
    by discriminate.
  refine (no_decisive_point_no_junction toy_map toy_flags
            (trajectory_of [at_ 0 0; at_ 0 50; at_ 1 101])
            [at_ 0 0; at_ 0 50] [at_ 1 101] None fresh_world
            eq_refl Hne Hpre _).
  right. left. exists (at_ 1 101), []. split; reflexivity.
Defined.

Lemma story_lifecycle_witness :
  exists ty2 ty3 wn,
    Update_cycles toy_map toy_flags
      [Some (trajectory_of [at_ 0 0]);
       Some (trajectory_of [at_ 0 0; at_ 1 5]);
       Some (trajectory_of [at_ 0 2; at_ 2 5]);
       Some (trajectory_of [at_ 0 0])]
      no_story fresh_world
    = Done ([no_story;
             {| close_to_junction :=
                  Some {| story_id := "P"; story_type := ty2;
                          story_distance := Double.of_Z 5 |} |};
             {| close_to_junction :=
                  Some {| story_id := "A"; story_type := ty3;
                          story_distance := Double.of_Z 3 |} |};
             no_story], wn)
    /\ log wn = [AINFO "Enter CloseToJunction story";
                 AINFO "Exit CloseToJunction story"].
Proof.
  destruct (proj2 (story_lifecycle toy_map toy_flags)
              (trajectory_of [at_ 0 0])
              (trajectory_of [at_ 0 0; at_ 1 5])
              (trajectory_of [at_ 0 2; at_ 2 5])
              (trajectory_of [at_ 0 0])
              fresh_world _ _ _ _ _ _ _ _
              eq_refl eq_refl eq_refl eq_refl
              eq_refl eq_refl eq_refl eq_refl)
    as (ty2 & ty3 & _ & _ & _ & _ & _ & _ & _ & Hlog & Hrun).
  exists ty2, ty3. eexists. split; [exact Hrun | exact Hlog].
Defined.

Lemma classifier_uses_first_candidate_witness :
  fst (IsPointInJunction toy_map toy_flags (path_point (at_ 4 0)) "") = false
  /\ IsPointInJunction toy_map_more toy_flags (path_point (at_ 2 0)) ""
     = IsPointInJunction toy_map toy_flags (path_point (at_ 2 0)) "".
Proof.
  split.
  - apply (proj1 (classifier_uses_first_candidate toy_map toy_flags
                    (path_point (at_ 4 0)) "")).
    right. right.
    exists {| junction_id_of := "D"; junction_polygon := segment |}.
    split; [reflexivity | reflexivity].
  - apply (proj1 (classifier_uses_first_candidate toy_map toy_flags
                    (path_point (at_ 2 0)) "")).
    reflexivity.
Defined.

(** C10, as stated, fails on "in those branches it also sets distance
    >= 0".  In the trajectory [s = 5] (in no junction), [s = 3] (in PNC
    junction "P") the scan leaves through the PNC branch: it assigns
    PNC_JUNCTION and the distance 3 - 5 = -2, which is negative and not
    [>= 0]. *)
Lemma decisive_branch_negative_distance :
  let traj := trajectory_of [at_ 0 5; at_ 1 3] in
  beyond_search_distance toy_flags (path_point (at_ 1 3)) = false
  /\ in_pnc_junction toy_map toy_flags (path_point (at_ 1 3)) = true
  /\ GetNearestJunction toy_map toy_flags traj None fresh_world
     = Done ({| out_id := "P";
                out_type := Some PNC_JUNCTION;
                out_distance := Double.of_Z (-2) |},
             {| overlapping_junction_id := "";
                log := [];
                examined := [path_point (at_ 0 5); path_point (at_ 1 3)] |})
  /\ Double.ge (Double.of_Z (-2)) Double.zero = false
  /\ Double.lt (Double.of_Z (-2)) Double.zero = true.
Proof. vm_compute. repeat split. Qed.

Lemma type_read_only_when_assigned_witness :
  let traj := trajectory_of [at_ 0 0; at_ 1 5] in
  well_formed_trajectory traj
  /\ exists out w1 stories' w',
       GetNearestJunction toy_map toy_flags traj None fresh_world
       = Done (out, w1)
       /\ Update toy_map toy_flags (Some traj) no_story fresh_world
          = Done (stories', w')
       /\ Double.ge (out_distance out) Double.zero = true
       /\ close_to_junction stories'
          = Some {| story_id := "P";
                    story_type := PNC_JUNCTION;
                    story_distance := Double.of_Z 5 |}.
Proof.
  intros traj.
  assert (Hwf : well_formed_trajectory traj).
  { split; repeat constructor. }
  split; [exact Hwf | ].
  assert (Hne : trajectory_point traj <> []) by discriminate.
  destruct (type_read_only_when_assigned toy_map toy_flags traj no_story
              fresh_world Hne)
    as (out & w1 & stories' & w' & Hrun & Hup & _ & Hdist & Hread & _).
  exists out, w1, stories', w'.
  split; [exact Hrun | ]. split; [exact Hup | ].
  assert (Hout : out = {| out_id := "P"; out_type := Some PNC_JUNCTION;
                          out_distance := Double.of_Z 5 |}).
  { assert (Hrun' : GetNearestJunction toy_map toy_flags traj None
                      fresh_world
                    = Done ({| out_id := "P"; out_type := Some PNC_JUNCTION;
                               out_distance := Double.of_Z 5 |},
                            {| overlapping_junction_id := "";
                               log := [];
                               examined := [path_point (at_ 0 0);
                                            path_point (at_ 1 5)] |}))
      by reflexivity.
    rewrite Hrun in Hrun'. now injection Hrun' as -> _. }
  assert (Hge : Double.ge (out_distance out) Double.zero = true).
  { apply Hdist; [exact Hwf | rewrite Hout; discriminate]. }
  split; [exact Hge | ].
  destruct (Hread Hge) as (ty & Hty & _ & Hstory).
  rewrite Hstory, Hout in *. cbn in Hty |- *. congruence.
Defined.

(** ** The sign of a difference, strict case *)

Lemma positive_ltb d : Double.positive d -> SFltb (S754_zero false) d = true.
Proof. destruct d as [sg | [ | ] | | [ | ] m e]; cbn; tauto. Qed.

Lemma negative_ltb d : Double.negative d -> SFltb d (S754_zero false) = true.
Proof. destruct d as [sg | [ | ] | | [ | ] m e]; cbn; tauto. Qed.

Lemma shr_1_pow r k :
  0 <= k -> 2 ^ (k + 1) <= shr_m r -> 2 ^ k <= shr_m (shr_1 r).
Proof.
  intros Hk. rewrite Z.pow_add_r, Z.pow_1_r by lia.
  assert (0 < 2 ^ k) by (apply Z.pow_pos_nonneg; lia).
  destruct r as [m r0 s0]. cbn [shr_m shr_1].
  destruct m as [ | [p | p | ] | p]; cbn [shr_m]; lia.
Qed.

Lemma iter_shr_1_pow p :
  forall r k, 0 <= k ->
    2 ^ (k + Zpos p) <= shr_m r -> 2 ^ k <= shr_m (iter_pos shr_1 p r).
Proof.
  induction p as [p IH | p IH | ]; intros r k Hk Hr; cbn [iter_pos].
  - apply IH; [lia | ]. apply IH; [lia | ]. apply shr_1_pow; [lia | ].
    replace (k + Zpos p + Zpos p + 1) with (k + Zpos p~1) by lia. exact Hr.
  - apply IH; [lia | ]. apply IH; [lia | ].
    replace (k + Zpos p + Zpos p) with (k + Zpos p~0) by lia. exact Hr.
  - apply shr_1_pow; assumption.
Qed.

Lemma shr_fexp_pos prec emax m e l :
  0 < prec -> emin prec emax <= e ->
  0 < shr_m (fst (shr_fexp prec emax (Zpos m) e l))
  /\ emin prec emax <= snd (shr_fexp prec emax (Zpos m) e l).
Proof.
  intros Hprec He. unfold shr_fexp, shr. cbn [Zdigits2].
  assert (Hm : shr_m (shr_record_of_loc (Zpos m) l) = Zpos m).
  { destruct l as [ | [ | | ]]; reflexivity. }
  destruct (fexp prec emax (Zpos (digits2_pos m) + e) - e) as [ | p | p] eqn:En;
    cbn [fst snd]; try (rewrite Hm; lia).
  split; [ | lia].
  assert (Hp : Zpos p = Zpos (digits2_pos m) - prec).
  { unfold fexp in En. lia. }
  pose proof (digits2_pos_bounds m) as [Hlow _].
  assert (Hk : 0 <= Zpos (digits2_pos m) - 1 - Zpos p) by lia.
  pose proof (iter_shr_1_pow p (shr_record_of_loc (Zpos m) l) _ Hk) as Hiter.
  replace (Zpos (digits2_pos m) - 1 - Zpos p + Zpos p)
    with (Zpos (digits2_pos m) - 1) in Hiter by lia.
  rewrite Hm in Hiter. specialize (Hiter Hlow).
  assert (0 < 2 ^ (Zpos (digits2_pos m) - 1 - Zpos p))
    by (apply Z.pow_pos_nonneg; lia).
  lia.
Qed.

Lemma round_nearest_even_pos m l : 0 < m -> 0 < round_nearest_even m l.
Proof.
  intros Hm. unfold round_nearest_even.
  destruct l as [ | [ | | ]]; try destruct (Z.even m); lia.
Qed.

Lemma binary_round_aux_signed prec emax sx m e l :
  0 < prec -> emin prec emax <= e ->
  match binary_round_aux prec emax sx (Zpos m) e l with
  | S754_finite sg _ _ | S754_infinity sg => sg = sx
  | _ => False
  end.
Proof.
  intros Hprec He. unfold binary_round_aux.
  pose proof (shr_fexp_pos prec emax m e l Hprec He) as [H1 He1].
  destruct (shr_fexp prec emax (Zpos m) e l) as [r1 e1].
  cbn [fst snd] in H1, He1.
  pose proof (round_nearest_even_pos _ (loc_of_shr_record r1) H1) as H2.
  destruct (round_nearest_even (shr_m r1) (loc_of_shr_record r1))
    as [ | m2 | m2]; try lia.
  pose proof (shr_fexp_pos prec emax m2 e1 loc_Exact Hprec He1) as [H3 _].
  destruct (shr_fexp prec emax (Zpos m2) e1 loc_Exact) as [r2 e2].
  cbn [fst] in H3.
  destruct (shr_m r2) as [ | p | p]; try lia.
  destruct (e2 <=? emax - prec); reflexivity.
Qed.

Lemma binary_round_signed prec emax sx m e :
  0 < prec -> emin prec emax <= e ->
  match binary_round prec emax sx m e with
  | S754_finite sg _ _ | S754_infinity sg => sg = sx
  | _ => False
  end.
Proof.
  intros Hprec He. unfold binary_round.
  assert (Hf : emin prec emax
               <= fexp prec emax (Zpos (digits2_pos m) + e)).
  { unfold fexp. lia. }
  unfold shl_align.
  destruct (fexp prec emax (Zpos (digits2_pos m) + e) - e) as [ | d | d];
    apply binary_round_aux_signed; auto.
Qed.

Lemma binary_normalize_pos prec emax m e :
  0 < prec -> emin prec emax <= e -> 0 < m ->
  Double.positive (binary_normalize prec emax m e false).
Proof.
  intros Hprec He Hm. destruct m as [ | p | p]; try lia.
  cbn [binary_normalize].
  pose proof (binary_round_signed prec emax false p e Hprec He) as H.
  destruct (binary_round prec emax false p e) as [sg | sg | | sg m' e'];
    try contradiction; subst sg; exact I.
Qed.

Lemma binary_normalize_neg prec emax m e :
  0 < prec -> emin prec emax <= e -> m < 0 ->
  Double.negative (binary_normalize prec emax m e false).
Proof.
  intros Hprec He Hm. destruct m as [ | p | p]; try lia.
  cbn [binary_normalize].
  pose proof (binary_round_signed prec emax true p e Hprec He) as H.
  destruct (binary_round prec emax true p e) as [sg | sg | | sg m' e'];
    try contradiction; subst sg; exact I.
Qed.

Lemma canonical_exponent_min prec emax m e :
  canonical_mantissa prec emax m e = true -> emin prec emax <= e.
Proof.
  unfold canonical_mantissa, fexp. intros H. apply Z.eqb_eq in H. lia.
Qed.

Lemma pos_compare_cont_lt ma mb :
  Pos.compare_cont Eq ma mb = Lt -> Zpos ma < Zpos mb.
Proof.
  change (Pos.compare_cont Eq ma mb) with (Pos.compare ma mb).
  intros H. apply Pos.compare_lt_iff in H. exact H.
Qed.

Lemma pos_compare_cont_gt ma mb :
  Pos.compare_cont Eq ma mb = Gt -> Zpos mb < Zpos ma.
Proof.
  change (Pos.compare_cont Eq ma mb) with (Pos.compare ma mb).
  intros H. apply Pos.compare_gt_iff in H. exact H.
Qed.

Lemma SFsub_pos prec emax a b :
  0 < prec ->
  valid_binary prec emax a = true ->
  valid_binary prec emax b = true ->
  SFltb a b = true ->
  match a, b with
  | S754_infinity _, _ | _, S754_infinity _ => True
  | _, _ => Double.positive (SFsub prec emax b a)
  end.
Proof.
  intros Hprec Va Vb Hlt.
  destruct a as [sa | sa | | sa ma ea]; destruct b as [sb | sb | | sb mb eb];
    try exact I; try discriminate Hlt.
  - destruct sb; [discriminate Hlt | exact I].
  - destruct sa; [exact I | discriminate Hlt].
  - cbn [valid_binary] in Va, Vb. unfold bounded in Va, Vb.
    apply andb_prop in Va, Vb. destruct Va as [Ca _], Vb as [Cb _].
    pose proof (canonical_exponent_min _ _ _ _ Ca) as Ea.
    pose proof (canonical_exponent_min _ _ _ _ Cb) as Eb.
    cbn [SFsub]. apply binary_normalize_pos; [exact Hprec | lia | ].
    assert (Hb' := shl_align_value mb eb (Z.min eb ea) (Z.le_min_l _ _)).
    assert (Ha' := shl_align_value ma ea (Z.min eb ea) (Z.le_min_r _ _)).
    rewrite Ha', Hb'. clear Ha' Hb'.
    unfold SFltb, SFcompare in Hlt.
    destruct sa, sb; cbn [cond_Zopp]; try discriminate Hlt.
    + destruct (Z.compare_spec ea eb) as [E | L | G]; try discriminate Hlt.
      * subst eb. rewrite Z.min_id, Z.sub_diag. cbn [Z.pow].
        assert (Zpos mb < Zpos ma).
        { apply pos_compare_cont_gt.
          destruct (Pos.compare_cont Eq ma mb); cbn in Hlt; congruence. }
        lia.
      * pose proof (canonical_exponent_order _ _ _ _ _ _ Cb Ca G).
        rewrite Z.min_l by lia. rewrite Z.sub_diag. cbn [Z.pow]. lia.
    + assert (0 < 2 ^ (eb - Z.min eb ea)) by (apply Z.pow_pos_nonneg; lia).
      assert (0 < 2 ^ (ea - Z.min eb ea)) by (apply Z.pow_pos_nonneg; lia).
      nia.
    + destruct (Z.compare_spec ea eb) as [E | L | G]; try discriminate Hlt.
      * subst eb. rewrite Z.min_id, Z.sub_diag. cbn [Z.pow].
        assert (Zpos ma < Zpos mb).
        { apply pos_compare_cont_lt.
          destruct (Pos.compare_cont Eq ma mb); congruence. }
        lia.
      * pose proof (canonical_exponent_order _ _ _ _ _ _ Ca Cb L).
        rewrite Z.min_r by lia. rewrite Z.sub_diag. cbn [Z.pow]. lia.
Qed.

Lemma sub_pos (a b : double) :
  Double.valid a = true -> Double.valid b = true ->
  Double.is_finite a = true -> Double.is_finite b = true ->
  Double.gt b a = true ->
  Double.gt (Double.sub b a) Double.zero = true.
Proof.
  intros Va Vb Fa Fb Hlt.
  assert (Hprec : 0 < Double.prec) by reflexivity.
  pose proof (SFsub_pos Double.prec Double.emax a b Hprec Va Vb Hlt) as H.
  unfold Double.gt, Double.sub. change Double.zero with (S754_zero false).
  apply positive_ltb.
  destruct a as [sa | sa | | sa ma ea]; try discriminate Fa;
    destruct b as [sb | sb | | sb mb eb]; try discriminate Fb; exact H.
Qed.

Lemma SFsub_neg prec emax a b :
  0 < prec ->
  valid_binary prec emax a = true ->
  valid_binary prec emax b = true ->
  SFltb b a = true ->
  match a, b with
  | S754_infinity _, _ | _, S754_infinity _ => True
  | _, _ => Double.negative (SFsub prec emax b a)
  end.
Proof.
  intros Hprec Va Vb Hlt.
  destruct a as [sa | sa | | sa ma ea]; destruct b as [sb | sb | | sb mb eb];
    try exact I; try discriminate Hlt.
  - destruct sb; [exact I | discriminate Hlt].
  - destruct sa; [discriminate Hlt | exact I].
  - cbn [valid_binary] in Va, Vb. unfold bounded in Va, Vb.
    apply andb_prop in Va, Vb. destruct Va as [Ca _], Vb as [Cb _].
    pose proof (canonical_exponent_min _ _ _ _ Ca) as Ea.
    pose proof (canonical_exponent_min _ _ _ _ Cb) as Eb.
    cbn [SFsub]. apply binary_normalize_neg; [exact Hprec | lia | ].
    assert (Hb' := shl_align_value mb eb (Z.min eb ea) (Z.le_min_l _ _)).
    assert (Ha' := shl_align_value ma ea (Z.min eb ea) (Z.le_min_r _ _)).
    rewrite Ha', Hb'. clear Ha' Hb'.
    unfold SFltb, SFcompare in Hlt.
    destruct sa, sb; cbn [cond_Zopp]; try discriminate Hlt.
    + destruct (Z.compare_spec eb ea) as [E | L | G]; try discriminate Hlt.
      * subst eb. rewrite Z.min_id, Z.sub_diag. cbn [Z.pow].
        assert (Zpos ma < Zpos mb).
        { apply pos_compare_cont_gt.
          destruct (Pos.compare_cont Eq mb ma); cbn in Hlt; congruence. }
        lia.
      * pose proof (canonical_exponent_order _ _ _ _ _ _ Ca Cb G).
        rewrite Z.min_r by lia. rewrite Z.sub_diag. cbn [Z.pow]. lia.
    + assert (0 < 2 ^ (eb - Z.min eb ea)) by (apply Z.pow_pos_nonneg; lia).
      assert (0 < 2 ^ (ea - Z.min eb ea)) by (apply Z.pow_pos_nonneg; lia).
      nia.
    + destruct (Z.compare_spec eb ea) as [E | L | G]; try discriminate Hlt.
      * subst eb. rewrite Z.min_id, Z.sub_diag. cbn [Z.pow].
        assert (Zpos mb < Zpos ma).
        { apply pos_compare_cont_lt.
          destruct (Pos.compare_cont Eq mb ma); congruence. }
        lia.
      * pose proof (canonical_exponent_order _ _ _ _ _ _ Cb Ca L).
        rewrite Z.min_l by lia. rewrite Z.sub_diag. cbn [Z.pow]. lia.
Qed.

Lemma sub_neg (a b : double) :
  Double.valid a = true -> Double.valid b = true ->
  Double.is_finite a = true -> Double.is_finite b = true ->
  Double.gt a b = true ->
  Double.lt (Double.sub b a) Double.zero = true.
Proof.
  intros Va Vb Fa Fb Hlt.
  assert (Hprec : 0 < Double.prec) by reflexivity.
  pose proof (SFsub_neg Double.prec Double.emax a b Hprec Va Vb Hlt) as H.
  unfold Double.lt, Double.sub. change Double.zero with (S754_zero false).
  apply negative_ltb.
  destruct a as [sa | sa | | sa ma ea]; try discriminate Fa;
    destruct b as [sb | sb | | sb mb eb]; try discriminate Fb; exact H.
Qed.

(** ** Further properties of the scan *)

Section ScanMore.

Variable hdmap : HDMap.
Variable flags : Flags.

Local Abbreviation scan := (scan_points hdmap flags).
Local Abbreviation beyond := (beyond_search_distance flags).
Local Abbreviation in_plain := (in_junction hdmap flags).
Local Abbreviation plain_id := (junction_id_at hdmap flags).
Local Abbreviation in_pnc := (in_pnc_junction hdmap flags).
Local Abbreviation pnc_id := (pnc_junction_id_at hdmap flags).
Local Abbreviation skipped := (passed_over hdmap flags).

Lemma scan_points_cut s_start pre tp post out w :
  beyond (path_point tp) = true ->
  scan s_start (pre ++ tp :: post) out w = scan s_start pre out w.
Proof.
  intros Hb. revert w. induction pre as [ | a pre IH]; intros w.
  - cbn [app]. rewrite scan_points_cons. cbv zeta. now rewrite Hb.
  - cbn [app]. rewrite !scan_points_cons. cbv zeta.
    destruct (beyond (path_point a)); [reflexivity | ].
    destruct (in_pnc (path_point a)); [reflexivity | ].
    destruct (in_plain (path_point a)); [reflexivity | ].
    apply IH.
Qed.

(** X1. The first point whose arc length exceeds the search distance
    ends the scan for good: the result is the one of the trajectory cut
    off before that point, whatever comes after it, even points whose
    arc length is again within the search distance. *)
Theorem scan_ignores_everything_after_cutoff traj pre tp post type w :
  trajectory_point traj = pre ++ tp :: post ->
  beyond (path_point tp) = true ->
  GetNearestJunction hdmap flags traj type w =
  match pre with
  | [] => Done (no_junction_found type, w)
  | _ :: _ => GetNearestJunction hdmap flags (trajectory_of pre) type w
  end.
Proof.
  intros Hsplit Hb. unfold GetNearestJunction. rewrite Hsplit.
  destruct pre as [ | first pre'].
  - cbn [app]. rewrite scan_points_cons. cbv zeta. now rewrite Hb.
  - cbn [app trajectory_of trajectory_point].
    change (first :: pre' ++ tp :: post) with ((first :: pre') ++ tp :: post).
    now rewrite scan_points_cut.
Qed.

(** The scan of a trajectory whose first point passes the guard. *)
Lemma GetNearestJunction_first traj tp post type w :
  trajectory_point traj = tp :: post ->
  beyond (path_point tp) = false ->
  let p := path_point tp in
  let w1 := note_examined w p in
  GetNearestJunction hdmap flags traj type w =
  Done (if in_pnc p then
          ({| out_id := pnc_id p;
              out_type := Some PNC_JUNCTION;
              out_distance := Double.sub (s p) (s p) |},
           set_overlapping w1 (if in_plain p then plain_id p else ""))
        else if in_plain p then
          if negb (String.eqb (plain_id p) (overlapping_junction_id w)) then
            ({| out_id := plain_id p;
                out_type := Some JUNCTION;
                out_distance := Double.sub (s p) (s p) |}, w1)
          else (no_junction_found type, w1)
        else scan (s p) post (no_junction_found type)
               (set_overlapping w1 "")).
Proof.
  intros Hsplit Hb p w1. subst p w1.
  unfold GetNearestJunction. rewrite Hsplit.
  rewrite scan_points_cons. cbv zeta. rewrite Hb. reflexivity.
Qed.

Lemma sub_self (d : double) :
  Double.is_finite d = true -> Double.sub d d = Double.zero.
Proof.
  destruct d as [sg | sg | | sg m e]; try discriminate; intros _.
  - destruct sg; reflexivity.
  - unfold Double.sub. cbn [SFsub]. rewrite Z.sub_diag. reflexivity.
Qed.

(** The distance handed back when the loop leaves through an assigning
    branch at [tp]. *)
Lemma GetNearestJunction_decided traj pre tp post type w :
  trajectory_point traj = pre ++ tp :: post ->
  Forall skipped pre ->
  beyond (path_point tp) = false ->
  in_pnc (path_point tp) = true
  \/ (in_plain (path_point tp) = true
      /\ plain_id (path_point tp)
         <> overlapping_junction_id (walked pre w)) ->
  exists out w1,
    GetNearestJunction hdmap flags traj type w = Done (out, w1)
    /\ out_distance out
       = Double.sub (arc_length tp)
                    (arc_length (hd tp (trajectory_point traj)))
    /\ (out_type out = Some PNC_JUNCTION \/ out_type out = Some JUNCTION).
Proof.
  intros Hsplit Hpre Hb Hmatch.
  rewrite (GetNearestJunction_split _ _ _ _ _ _ _ _ Hsplit Hpre).
  rewrite scan_points_cons. cbv zeta. rewrite Hb, Hsplit, hd_split.
  destruct (in_pnc (path_point tp)) eqn:Hp.
  - eexists _, _. split; [reflexivity | ]. split; [reflexivity | now left].
  - destruct Hmatch as [Hp' | [Hj Hid]]; [discriminate | ].
    rewrite Hj.
    destruct (String.eqb_spec (plain_id (path_point tp))
                (overlapping_junction_id (walked pre w))) as [E | _];
      [contradiction | ].
    cbn [negb].
    eexists _, _. split; [reflexivity | ]. split; [reflexivity | now right].
Qed.

(** X2. "0 if in junction": when the deciding point (a PNC match, or a
    plain match not suppressed) has the arc length of the first point of
    the trajectory, and that arc length is finite, the distance handed
    back is exactly +0.0.  This is the case in particular when the first
    point itself decides. *)
Theorem junction_at_start_gives_zero_distance traj pre tp post type w :
  trajectory_point traj = pre ++ tp :: post ->
  Forall skipped pre ->
  beyond (path_point tp) = false ->
  in_pnc (path_point tp) = true
  \/ (in_plain (path_point tp) = true
      /\ plain_id (path_point tp)
         <> overlapping_junction_id (walked pre w)) ->
  Double.is_finite (arc_length tp) = true ->
  arc_length tp = arc_length (hd tp (trajectory_point traj)) ->
  exists out w1,
    GetNearestJunction hdmap flags traj type w = Done (out, w1)
    /\ out_distance out = Double.zero
    /\ (out_type out = Some PNC_JUNCTION \/ out_type out = Some JUNCTION).
Proof.
  intros Hsplit Hpre Hb Hmatch Hfin Hsame.
  destruct (GetNearestJunction_decided traj pre tp post type w
              Hsplit Hpre Hb Hmatch) as (out & w1 & Hrun & Hd & Hty).
  exists out, w1. split; [exact Hrun | ]. split; [ | exact Hty].
  rewrite Hd, <- Hsame. apply sub_self, Hfin.
Qed.

(** X3. "positive which is the distance to the nearest junction
    ahead": when the deciding point has a finite arc length strictly
    greater than the finite arc length of the first point (both proper
    binary64 values), the distance handed back is strictly positive. *)
Theorem junction_ahead_gives_positive_distance traj pre tp post type w :
  trajectory_point traj = pre ++ tp :: post ->
  Forall skipped pre ->
  beyond (path_point tp) = false ->
  in_pnc (path_point tp) = true
  \/ (in_plain (path_point tp) = true
      /\ plain_id (path_point tp)
         <> overlapping_junction_id (walked pre w)) ->
  arc_length_ok tp ->
  arc_length_ok (hd tp (trajectory_point traj)) ->
  Double.gt (arc_length tp)
            (arc_length (hd tp (trajectory_point traj))) = true ->
  exists out w1,
    GetNearestJunction hdmap flags traj type w = Done (out, w1)
    /\ Double.gt (out_distance out) Double.zero = true
    /\ (out_type out = Some PNC_JUNCTION \/ out_type out = Some JUNCTION).
Proof.
  intros Hsplit Hpre Hb Hmatch [Vt Ft] [Vf Ff] Hgt.
  destruct (GetNearestJunction_decided traj pre tp post type w
              Hsplit Hpre Hb Hmatch) as (out & w1 & Hrun & Hd & Hty).
  exists out, w1. split; [exact Hrun | ]. split; [ | exact Hty].
  rewrite Hd. apply sub_pos; assumption.
Qed.

(** The points examined by one scan, in order: a prefix of the
    trajectory in which every point but the last was walked past. *)
Lemma scan_points_trace s_start points out w :
  exists seen rest,
    points = seen ++ rest
    /\ examined (snd (scan s_start points out w))
       = examined w ++ map path_point seen
    /\ Forall skipped (removelast seen).
Proof.
  revert w. induction points as [ | tp points IH]; intros w.
  - exists [], []. cbn. rewrite app_nil_r. auto.
  - rewrite scan_points_cons. cbv zeta.
    destruct (beyond (path_point tp)) eqn:Hb.
    { exists [], (tp :: points). cbn. rewrite app_nil_r. auto. }
    destruct (in_pnc (path_point tp)) eqn:Hp.
    { exists [tp], points. cbn. auto. }
    destruct (in_plain (path_point tp)) eqn:Hj.
    { destruct (negb _); exists [tp], points; cbn; auto. }
    destruct (IH (set_overlapping (note_examined w (path_point tp)) ""))
      as (seen & rest & -> & Hex & Hall).
    exists (tp :: seen), rest. split; [reflexivity | ]. split.
    + rewrite Hex. cbn. now rewrite <- app_assoc.
    + destruct seen as [ | a seen']; [constructor | ].
      change (removelast (tp :: a :: seen'))
        with (tp :: removelast (a :: seen')).
      constructor; [repeat split; assumption | exact Hall].
Qed.

(** X4. One scan hands each trajectory point to the classifiers at
    most once and in order: the points examined form a prefix of the
    trajectory, and every examined point except the last one matched
    neither junction kind.  So a scan examines at most as many points as
    the trajectory has. *)
Theorem scan_examines_a_prefix traj type w :
  trajectory_point traj <> [] ->
  exists out w1 seen rest,
    GetNearestJunction hdmap flags traj type w = Done (out, w1)
    /\ trajectory_point traj = seen ++ rest
    /\ examined w1 = examined w ++ map path_point seen
    /\ Forall skipped (removelast seen)
    /\ (List.length seen <= List.length (trajectory_point traj))%nat.
Proof.
  intros Hne. unfold GetNearestJunction.
  destruct (trajectory_point traj) as [ | first points] eqn:E;
    [congruence | ].
  cbv zeta.
  destruct (scan_points_trace (s (path_point first)) (first :: points)
              {| out_id := ""; out_type := type;
                 out_distance := Double.of_Z (-1) |} w)
    as (seen & rest & Hsplit & Hex & Hall).
  destruct (scan _ (first :: points) _ w) as [out w1]. cbn [snd] in Hex.
  exists out, w1, seen, rest. repeat split; auto.
  rewrite Hsplit, length_app. lia.
Qed.

(** The static after a scan that left through an assigning branch. *)
Lemma scan_points_decided s_start pre tp post out w :
  Forall skipped pre ->
  beyond (path_point tp) = false ->
  let p := path_point tp in
  let stored := overlapping_junction_id (walked pre w) in
  (in_pnc p = true ->
   overlapping_junction_id (snd (scan s_start (pre ++ tp :: post) out w))
   = (if in_plain p then plain_id p else ""))
  /\ (in_pnc p = false -> in_plain p = true ->
      overlapping_junction_id (snd (scan s_start (pre ++ tp :: post) out w))
      = stored).
Proof.
  intros Hpre Hb p stored. subst p stored.
  rewrite (scan_points_walk _ _ _ _ _ _ _ Hpre).
  rewrite scan_points_cons. cbv zeta. rewrite Hb. split.
  - intros Hp. rewrite Hp. reflexivity.
  - intros Hp Hj. rewrite Hp, Hj. destruct (negb _); reflexivity.
Qed.

(** X5. What the hysteresis variable holds after a scan, by the kind
    handed back.  After JUNCTION it differs from the reported id.  After
    PNC_JUNCTION it is empty, or it is the id of a plain junction matched
    by the very point at which the PNC junction was found.  When no kind
    was assigned the outputs are the "no junction found" ones. *)
Theorem hysteresis_after_scan traj w out w1 :
  GetNearestJunction hdmap flags traj None w = Done (out, w1) ->
  match out_type out with
  | Some JUNCTION => overlapping_junction_id w1 <> out_id out
  | Some PNC_JUNCTION =>
      overlapping_junction_id w1 = ""
      \/ exists tp,
           In tp (trajectory_point traj)
           /\ in_pnc (path_point tp) = true
           /\ in_plain (path_point tp) = true
           /\ out_id out = pnc_id (path_point tp)
           /\ overlapping_junction_id w1 = plain_id (path_point tp)
  | None => out = no_junction_found None
  end.
Proof.
  intros Hrun.
  assert (Hne : trajectory_point traj <> []).
  { unfold GetNearestJunction in Hrun.
    destruct (trajectory_point traj); [discriminate | discriminate]. }
  destruct (GetNearestJunction_outcome hdmap flags traj None w Hne)
    as (out' & w1' & Hrun' & _ & Hcase).
  rewrite Hrun in Hrun'. injection Hrun' as <- <-.
  destruct Hcase as [-> | (pre & tp & post & Hsplit & Hpre & Hb & _ & Hcase)].
  { reflexivity. }
  assert (Hw1 : scan (s (path_point (hd tp (trajectory_point traj))))
                   (pre ++ tp :: post) (no_junction_found None) w
                 = (out, w1)).
  { unfold GetNearestJunction in Hrun. rewrite Hsplit in Hrun |- *.
    cbv zeta in Hrun. unfold no_junction_found.
    destruct pre as [ | first pre']; cbn [app hd] in *; congruence. }
  destruct (scan_points_decided
              (s (path_point (hd tp (trajectory_point traj))))
              pre tp post (no_junction_found None) w Hpre Hb)
    as [Hpnc Hplain].
  rewrite Hw1 in Hpnc, Hplain. cbn [snd] in Hpnc, Hplain.
  destruct Hcase as [(Hp & -> & Hid) | (Hp & Hj & Hneq & -> & Hid)].
  - rewrite (Hpnc Hp).
    destruct (in_plain (path_point tp)) eqn:Hj; [ | now left].
    right. exists tp. repeat split; auto.
    rewrite Hsplit. apply in_or_app. right. now left.
  - rewrite (Hplain Hp Hj), Hid. auto.
Qed.

(** X6. The incoming content of the hysteresis variable can change the
    outputs of a scan only when the first point of the trajectory passes
    the guard and matches a plain junction and no PNC junction.  In all
    other cases two scans of the same trajectory hand back the same
    outputs whatever the variable held before, and, unless the first
    point is already beyond the guard, they leave the same content in
    it. *)
Theorem hysteresis_only_matters_at_plain_first_point traj tp post type w v :
  trajectory_point traj = tp :: post ->
  beyond (path_point tp) = true
  \/ in_pnc (path_point tp) = true
  \/ in_plain (path_point tp) = false ->
  exists out w1 v1,
    GetNearestJunction hdmap flags traj type w = Done (out, w1)
    /\ GetNearestJunction hdmap flags traj type v = Done (out, v1)
    /\ (beyond (path_point tp) = false ->
        overlapping_junction_id w1 = overlapping_junction_id v1).
Proof.
  intros Hsplit Hcase. unfold GetNearestJunction. rewrite Hsplit.
  rewrite !scan_points_cons. cbv zeta.
  destruct (beyond (path_point tp)) eqn:Hb.
  { eexists _, _, _. repeat split. discriminate. }
  destruct (in_pnc (path_point tp)) eqn:Hp.
  { eexists _, _, _. repeat split. }
  destruct Hcase as [Hc | [Hc | Hj]]; try discriminate. rewrite Hj.
  destruct (scan_points_static hdmap flags (s (path_point tp)) post
              {| out_id := ""; out_type := type;
                 out_distance := Double.of_Z (-1) |}
              (set_overlapping (note_examined w (path_point tp)) "")
              (set_overlapping (note_examined v (path_point tp)) "")
              eq_refl) as [Hfst Hsnd].
  destruct (scan _ post _ (set_overlapping (note_examined w _) ""))
    as [o1 w1].
  destruct (scan _ post _ (set_overlapping (note_examined v _) ""))
    as [o2 v1].
  cbn [fst snd] in Hfst, Hsnd. subst o2.
  exists o1, w1, v1. repeat split. intros _. exact Hsnd.
Qed.

End ScanMore.

(** ** Further properties of the controller across cycles *)

Section CyclesMore.

Variable hdmap : HDMap.
Variable flags : Flags.

Local Abbreviation scan := (scan_points hdmap flags).
Local Abbreviation beyond := (beyond_search_distance flags).
Local Abbreviation in_plain := (in_junction hdmap flags).
Local Abbreviation plain_id := (junction_id_at hdmap flags).
Local Abbreviation in_pnc := (in_pnc_junction hdmap flags).
Local Abbreviation pnc_id := (pnc_junction_id_at hdmap flags).
Local Abbreviation skipped := (passed_over hdmap flags).
Local Abbreviation enter := (AINFO "Enter CloseToJunction story").
Local Abbreviation leave := (AINFO "Exit CloseToJunction story").
Local Abbreviation not_ready := (AERROR "Planning trajectory not ready.").

Lemma balance_app a b : balance (a ++ b) = balance a + balance b.
Proof.
  unfold balance. rewrite !filter_app, !length_app, !Nat2Z.inj_add. lia.
Qed.

Lemma last_cons {A} (a d : A) l : last (a :: l) d = last l a.
Proof.
  revert a d. induction l as [ | b l IH]; intros a d; [reflexivity | ].
  change (last (a :: b :: l) d) with (last (b :: l) d).
  now rewrite (IH b d), (IH b a).
Qed.

(** One [Update]: what it adds to the log and how the record changes. *)
Lemma Update_step trajectory stories w stories' w' :
  Update hdmap flags trajectory stories w = Done (stories', w') ->
  (exists added,
     log w' = log w ++ added
     /\ (List.length added <= 1)%nat
     /\ balance added = presence stories' - presence stories)
  /\ (story_distance_ok stories -> story_distance_ok stories').
Proof.
  intros Hup.
  assert (Hskip : Done (stories, emit w not_ready) = Done (stories', w') ->
                  (exists added,
                     log w' = log w ++ added
                     /\ (List.length added <= 1)%nat
                     /\ balance added = presence stories' - presence stories)
                  /\ (story_distance_ok stories -> story_distance_ok stories')).
  { intros H. injection H as <- <-. split; [ | auto].
    exists [not_ready]. repeat split; auto.
    change (balance [not_ready]) with 0. lia. }
  destruct trajectory as [traj | ]; [ | exact (Hskip Hup)].
  destruct (trajectory_point traj) as [ | first rest] eqn:E.
  { unfold Update in Hup. rewrite E in Hup. exact (Hskip Hup). }
  assert (Hne : trajectory_point traj <> []) by congruence.
  destruct (GetNearestJunction_outcome hdmap flags traj None w Hne)
    as (out & w1 & Hrun & Hlog & _).
  destruct (Update_after_scan hdmap flags traj stories w out w1 Hrun)
    as [(Hge & ty & _ & Hup') | (Hge & Hup')];
    rewrite Hup in Hup'; injection Hup' as -> ->.
  - split; [ | intros _; exact Hge].
    unfold presence at 2.
    change (presence (story_of out ty)) with 1.
    destruct (has_close_to_junction stories).
    + exists []. rewrite app_nil_r. repeat split; auto.
    + exists [enter]. cbn [log emit]. rewrite Hlog. repeat split; auto.
  - split; [ | intros _; exact I].
    unfold presence at 2.
    change (presence no_story) with 0.
    destruct (has_close_to_junction stories).
    + exists [leave]. cbn [log emit]. rewrite Hlog. repeat split; auto.
    + exists []. rewrite app_nil_r. repeat split; auto.
Qed.

(** X7. Whatever the trajectories and the map, a record that [Update]
    leaves present carries a distance that is [>= 0] (so never negative
    and never NaN): starting from an absent record, or from one with
    such a distance, this holds after every cycle of any run. *)
Theorem story_distance_never_negative snapshots stories w :
  story_distance_ok stories ->
  exists records wn,
    Update_cycles hdmap flags snapshots stories w = Done (records, wn)
    /\ Forall story_distance_ok records.
Proof.
  revert stories w.
  induction snapshots as [ | t later IH]; intros stories w Hok.
  - exists [], w. split; [reflexivity | constructor].
  - destruct (Update_total hdmap flags t stories w) as (st1 & w1 & Hup).
    destruct (Update_step t stories w st1 w1 Hup) as [_ Hkeep].
    destruct (IH st1 w1 (Hkeep Hok)) as (records & wn & Hrun & Hall).
    exists (st1 :: records), wn.
    split; [ | constructor; [exact (Hkeep Hok) | exact Hall]].
    cbn [Update_cycles]. rewrite Hup. cbv beta iota delta [bind].
    rewrite Hrun. reflexivity.
Qed.

(** X8. Over any run of cycles each [Update] adds at most one message
    to the log and never removes one, and the number of "Enter" messages
    minus the number of "Exit" messages added during the run equals the
    change in presence of the record: +1 when it went from absent to
    present, -1 from present to absent, 0 otherwise.  Hence "Enter" and
    "Exit" alternate. *)
Theorem enter_exit_balance snapshots stories w :
  exists records wn added,
    Update_cycles hdmap flags snapshots stories w = Done (records, wn)
    /\ log wn = log w ++ added
    /\ (List.length added <= List.length snapshots)%nat
    /\ balance added = presence (last records stories) - presence stories.
Proof.
  revert stories w.
  induction snapshots as [ | t later IH]; intros stories w.
  - exists [], w, []. cbn. rewrite app_nil_r. repeat split; auto. lia.
  - destruct (Update_total hdmap flags t stories w) as (st1 & w1 & Hup).
    destruct (Update_step t stories w st1 w1 Hup)
      as [(added1 & Hlog1 & Hlen1 & Hbal1) _].
    destruct (IH st1 w1) as (records & wn & added & Hrun & Hlog & Hlen & Hbal).
    exists (st1 :: records), wn, (added1 ++ added).
    split; [ | split; [ | split]].
    + cbn [Update_cycles]. rewrite Hup. cbv beta iota delta [bind].
      rewrite Hrun. reflexivity.
    + rewrite Hlog, Hlog1, app_assoc. reflexivity.
    + rewrite length_app. cbn [List.length]. lia.
    + rewrite balance_app, last_cons, Hbal, Hbal1. lia.
Qed.

(** X9. Leaving an overlap.  In one cycle the first trajectory point
    lies in a PNC junction and in a plain junction; in the next cycle
    the first point lies in that same plain junction only.  Then the
    first cycle leaves a PNC_JUNCTION record with distance +0.0, and the
    second cycle does not turn it into a JUNCTION record: it removes the
    record and logs "Exit", and the hysteresis variable still holds the
    plain junction's id. *)
Theorem leaving_overlap_clears_story t1 p1 rest1 t2 p2 rest2 stories w :
  trajectory_point t1 = p1 :: rest1 ->
  Double.is_finite (arc_length p1) = true ->
  beyond (path_point p1) = false ->
  in_pnc (path_point p1) = true ->
  in_plain (path_point p1) = true ->
  trajectory_point t2 = p2 :: rest2 ->
  beyond (path_point p2) = false ->
  in_pnc (path_point p2) = false ->
  in_plain (path_point p2) = true ->
  plain_id (path_point p2) = plain_id (path_point p1) ->
  exists w2,
    Update_cycles hdmap flags [Some t1; Some t2] stories w
    = Done ([{| close_to_junction :=
                  Some {| story_id := pnc_id (path_point p1);
                          story_type := PNC_JUNCTION;
                          story_distance := Double.zero |} |};
             no_story], w2)
    /\ overlapping_junction_id w2 = plain_id (path_point p1)
    /\ log w2 = log w
                ++ (if has_close_to_junction stories then [] else [enter])
                ++ [leave].
Proof.
  intros E1 Hfin Hb1 Hp1 Hj1 E2 Hb2 Hp2 Hj2 Hid.
  pose proof (GetNearestJunction_first hdmap flags t1 p1 rest1 None w E1 Hb1)
    as Hrun1.
  cbv zeta in Hrun1. rewrite Hp1, Hj1 in Hrun1.
  fold (arc_length p1) in Hrun1. rewrite (sub_self _ Hfin) in Hrun1.
  destruct (Update_after_scan hdmap flags t1 stories w _ _ Hrun1)
    as [(_ & ty & Hty & Hup1) | (Hge & _)]; [ | discriminate Hge].
  cbn [out_type] in Hty. injection Hty as <-.
  unfold story_of in Hup1. cbn [out_id out_distance] in Hup1.
  set (w1 := if has_close_to_junction stories
             then set_overlapping (note_examined w (path_point p1))
                    (plain_id (path_point p1))
             else emit (set_overlapping (note_examined w (path_point p1))
                          (plain_id (path_point p1))) enter) in *.
  assert (Hw1 : overlapping_junction_id w1 = plain_id (path_point p1)).
  { subst w1. destruct (has_close_to_junction stories); reflexivity. }
  assert (Hl1 : log w1 = log w ++ (if has_close_to_junction stories
                                   then [] else [enter])).
  { subst w1. destruct (has_close_to_junction stories); cbn;
      [now rewrite app_nil_r | reflexivity]. }
  pose proof (GetNearestJunction_first hdmap flags t2 p2 rest2 None w1 E2 Hb2)
    as Hrun2.
  cbv zeta in Hrun2. rewrite Hp2, Hj2, Hw1, Hid, String.eqb_refl in Hrun2.
  cbn [negb] in Hrun2.
  destruct (Update_after_scan hdmap flags t2
              {| close_to_junction :=
                   Some {| story_id := pnc_id (path_point p1);
                           story_type := PNC_JUNCTION;
                           story_distance := Double.zero |} |}
              w1 _ _ Hrun2)
    as [(Hge & _) | (_ & Hup2)]; [discriminate Hge | ].
  cbn [has_close_to_junction close_to_junction] in Hup2.
  eexists. split; [ | split].
  - cbn [Update_cycles]. rewrite Hup1. cbv beta iota delta [bind].
    rewrite Hup2. reflexivity.
  - cbn. exact Hw1.
  - cbn [log emit note_examined]. rewrite Hl1, <- app_assoc. reflexivity.
Qed.

(** X10. Suppression is not limited to one cycle.  As long as the first
    trajectory point lies in the plain junction whose id the hysteresis
    variable holds (and in no PNC junction), every cycle leaves the
    record absent and the variable unchanged, for any number of
    cycles. *)
Theorem suppression_persists t tp post n stories w :
  trajectory_point t = tp :: post ->
  beyond (path_point tp) = false ->
  in_pnc (path_point tp) = false ->
  in_plain (path_point tp) = true ->
  overlapping_junction_id w = plain_id (path_point tp) ->
  exists wn,
    Update_cycles hdmap flags (repeat (Some t) n) stories w
    = Done (repeat no_story n, wn)
    /\ overlapping_junction_id wn = plain_id (path_point tp).
Proof.
  intros E Hb Hp Hj. revert stories w.
  induction n as [ | n IH]; intros stories w Hw.
  - exists w. split; [reflexivity | exact Hw].
  - pose proof (GetNearestJunction_first hdmap flags t tp post None w E Hb)
      as Hrun.
    cbv zeta in Hrun. rewrite Hp, Hj, Hw, String.eqb_refl in Hrun.
    cbn [negb] in Hrun.
    destruct (Update_after_scan hdmap flags t stories w _ _ Hrun)
      as [(Hge & _) | (_ & Hup)]; [discriminate Hge | ].
    set (w1 := if has_close_to_junction stories
               then emit (note_examined w (path_point tp)) leave
               else note_examined w (path_point tp)) in *.
    assert (Hw1 : overlapping_junction_id w1 = plain_id (path_point tp)).
    { subst w1. destruct (has_close_to_junction stories); exact Hw. }
    destruct (IH no_story w1 Hw1) as (wn & Hrest & Hwn).
    exists wn. split; [ | exact Hwn].
    cbn [repeat Update_cycles]. rewrite Hup. cbv beta iota delta [bind].
    rewrite Hrest. reflexivity.
Qed.


Lemma sub_nan_r (d : double) : Double.sub d S754_nan = S754_nan.
Proof. destruct d; reflexivity. Qed.

(** X12. A first point whose arc length is NaN: whatever the rest of the
    trajectory and the map, every distance the scan can hand back is
    then NaN or -1, so [Update] never leaves a record; a record that was
    present is removed. *)
Theorem nan_start_never_yields_story traj first rest stories w :
  trajectory_point traj = first :: rest ->
  arc_length first = S754_nan ->
  exists w',
    Update hdmap flags (Some traj) stories w = Done (no_story, w').
Proof.
  intros E Hnan.
  assert (Hne : trajectory_point traj <> []) by congruence.
  destruct (GetNearestJunction_outcome hdmap flags traj None w Hne)
    as (out & w1 & Hrun & _ & Hcase).
  assert (Hge : Double.ge (out_distance out) Double.zero = false).
  { destruct Hcase as [-> | (pre & tp & post & _ & _ & _ & Hd & _)];
      [reflexivity | ].
    rewrite Hd, E. cbn [hd]. rewrite Hnan, sub_nan_r. reflexivity. }
  destruct (Update_after_scan hdmap flags traj stories w out w1 Hrun)
    as [(Hge' & _) | (_ & Hup)]; [congruence | ].
  eexists. exact Hup.
Qed.

(** X13. A junction found behind the start.  When the deciding point has
    an arc length strictly smaller than the one of the first point (both
    finite binary64 values), the scan assigns the kind but hands back a
    strictly negative distance, and [Update] treats the cycle as "not
    close": the record is absent afterwards, and "Exit" is logged if it
    was present. *)
Theorem junction_behind_start_is_dropped traj pre tp post stories w :
  trajectory_point traj = pre ++ tp :: post ->
  Forall skipped pre ->
  beyond (path_point tp) = false ->
  in_pnc (path_point tp) = true
  \/ (in_plain (path_point tp) = true
      /\ plain_id (path_point tp)
         <> overlapping_junction_id (walked pre w)) ->
  arc_length_ok tp ->
  arc_length_ok (hd tp (trajectory_point traj)) ->
  Double.gt (arc_length (hd tp (trajectory_point traj)))
            (arc_length tp) = true ->
  exists out w1,
    GetNearestJunction hdmap flags traj None w = Done (out, w1)
    /\ (out_type out = Some PNC_JUNCTION \/ out_type out = Some JUNCTION)
    /\ Double.lt (out_distance out) Double.zero = true
    /\ Update hdmap flags (Some traj) stories w
       = Done (no_story,
               if has_close_to_junction stories then emit w1 leave else w1).
Proof.
  intros Hsplit Hpre Hb Hmatch [Vt Ft] [Vf Ff] Hgt.
  destruct (GetNearestJunction_decided hdmap flags traj pre tp post None w
              Hsplit Hpre Hb Hmatch) as (out & w1 & Hrun & Hd & Hty).
  assert (Hlt : Double.lt (out_distance out) Double.zero = true).
  { rewrite Hd. apply sub_neg; assumption. }
  exists out, w1. split; [exact Hrun | ]. split; [exact Hty | ].
  split; [exact Hlt | ].
  apply lt_zero_not_ge in Hlt.
  destruct (Update_after_scan hdmap flags traj stories w out w1 Hrun)
    as [(Hge & _) | (_ & Hup)]; [congruence | exact Hup].
Qed.

End CyclesMore.

(** ** Concrete runs for the further properties *)

Lemma scan_ignores_everything_after_cutoff_witness :
  beyond_search_distance toy_flags (path_point (at_ 1 50)) = false
  /\ GetNearestJunction toy_map toy_flags
       (trajectory_of [at_ 0 0; at_ 0 101; at_ 1 50]) None fresh_world
     = GetNearestJunction toy_map toy_flags (trajectory_of [at_ 0 0])
         None fresh_world.
Proof.
  split; [reflexivity | ].
  exact (scan_ignores_everything_after_cutoff toy_map toy_flags
           (trajectory_of [at_ 0 0; at_ 0 101; at_ 1 50])
           [at_ 0 0] (at_ 0 101) [at_ 1 50] None fresh_world
           eq_refl eq_refl).
Defined.

Lemma junction_at_start_gives_zero_distance_witness :
  exists out w1,
    GetNearestJunction toy_map toy_flags (trajectory_of [at_ 1 7]) None
      fresh_world = Done (out, w1)
    /\ out_distance out = Double.zero
    /\ (out_type out = Some PNC_JUNCTION \/ out_type out = Some JUNCTION).
Proof.
  exact (junction_at_start_gives_zero_distance toy_map toy_flags
           (trajectory_of [at_ 1 7]) [] (at_ 1 7) [] None fresh_world
           eq_refl (Forall_nil _) eq_refl (or_introl eq_refl)
           eq_refl eq_refl).
Defined.

Lemma junction_ahead_gives_positive_distance_witness :
  exists out w1,
    GetNearestJunction toy_map toy_flags
      (trajectory_of [at_ 0 0; at_ 1 5]) None fresh_world = Done (out, w1)
    /\ Double.gt (out_distance out) Double.zero = true
    /\ (out_type out = Some PNC_JUNCTION \/ out_type out = Some JUNCTION).
Proof.
  assert (Hpre : Forall (passed_over toy_map toy_flags) [at_ 0 0]).
  { repeat constructor. }
  exact (junction_ahead_gives_positive_distance toy_map toy_flags
           (trajectory_of [at_ 0 0; at_ 1 5]) [at_ 0 0] (at_ 1 5) []
           None fresh_world eq_refl Hpre eq_refl (or_introl eq_refl)
           (conj eq_refl eq_refl) (conj eq_refl eq_refl) eq_refl).
Defined.

Lemma scan_examines_a_prefix_witness :
  let traj := trajectory_of [at_ 0 0; at_ 1 5; at_ 2 7] in
  exists out w1 seen rest,
    GetNearestJunction toy_map toy_flags traj None fresh_world
    = Done (out, w1)
    /\ trajectory_point traj = seen ++ rest
    /\ examined w1 = examined fresh_world ++ map path_point seen
    /\ Forall (passed_over toy_map toy_flags) (removelast seen)
    /\ (List.length seen <= List.length (trajectory_point traj))%nat.
Proof.
  intros traj.
  assert (Hne : trajectory_point traj <> []) by discriminate.
  exact (scan_examines_a_prefix toy_map toy_flags traj None fresh_world Hne).
Defined.

Lemma hysteresis_after_scan_witness :
  let traj := trajectory_of [at_ 0 0; at_ 3 5] in
  exists w1,
    GetNearestJunction toy_map toy_flags traj None fresh_world
    = Done ({| out_id := "P"; out_type := Some PNC_JUNCTION;
               out_distance := Double.of_Z 5 |}, w1)
    /\ (overlapping_junction_id w1 = ""
        \/ exists tp,
             In tp (trajectory_point traj)
             /\ in_pnc_junction toy_map toy_flags (path_point tp) = true
             /\ in_junction toy_map toy_flags (path_point tp) = true
             /\ "P" = pnc_junction_id_at toy_map toy_flags (path_point tp)
             /\ overlapping_junction_id w1
                = junction_id_at toy_map toy_flags (path_point tp)).
Proof.
  intros traj. eexists. split; [reflexivity | ].
  exact (hysteresis_after_scan toy_map toy_flags traj fresh_world _ _
           eq_refl).
Defined.

Lemma hysteresis_only_matters_at_plain_first_point_witness :
  let traj := trajectory_of [at_ 3 5; at_ 2 7] in
  exists out w1 v1,
    GetNearestJunction toy_map toy_flags traj None (world_with "A")
    = Done (out, w1)
    /\ GetNearestJunction toy_map toy_flags traj None fresh_world
       = Done (out, v1)
    /\ (beyond_search_distance toy_flags (path_point (at_ 3 5)) = false ->
        overlapping_junction_id w1 = overlapping_junction_id v1).
Proof.
  intros traj.
  exact (hysteresis_only_matters_at_plain_first_point toy_map toy_flags
           traj (at_ 3 5) [at_ 2 7] None (world_with "A") fresh_world
           eq_refl (or_intror (or_introl eq_refl))).
Defined.

Lemma story_distance_never_negative_witness :
  exists records wn,
    Update_cycles toy_map toy_flags
      [Some (trajectory_of [at_ 0 5; at_ 1 3]);
       Some (trajectory_of [at_ 0 0; at_ 1 5]);
       None]
      no_story fresh_world = Done (records, wn)
    /\ Forall story_distance_ok records.
Proof.
  exact (story_distance_never_negative toy_map toy_flags
           [Some (trajectory_of [at_ 0 5; at_ 1 3]);
            Some (trajectory_of [at_ 0 0; at_ 1 5]);
            None]
           no_story fresh_world I).
Defined.

Lemma leaving_overlap_clears_story_witness :
  exists w2,
    Update_cycles toy_map toy_flags
      [Some (trajectory_of [at_ 3 0; at_ 2 4]);
       Some (trajectory_of [at_ 2 0; at_ 0 4])]
      no_story fresh_world
    = Done ([{| close_to_junction :=
                  Some {| story_id := "P";
                          story_type := PNC_JUNCTION;
                          story_distance := Double.zero |} |};
             no_story], w2)
    /\ overlapping_junction_id w2 = "A"
    /\ log w2 = [AINFO "Enter CloseToJunction story";
                 AINFO "Exit CloseToJunction story"].
Proof.
  exact (leaving_overlap_clears_story toy_map toy_flags
           (trajectory_of [at_ 3 0; at_ 2 4]) (at_ 3 0) [at_ 2 4]
           (trajectory_of [at_ 2 0; at_ 0 4]) (at_ 2 0) [at_ 0 4]
           no_story fresh_world
           eq_refl eq_refl eq_refl eq_refl eq_refl
           eq_refl eq_refl eq_refl eq_refl eq_refl).
Defined.

Lemma suppression_persists_witness :
  exists wn,
    Update_cycles toy_map toy_flags
      (repeat (Some (trajectory_of [at_ 2 0; at_ 1 4])) 3)
      no_story (world_with "A")
    = Done (repeat no_story 3, wn)
    /\ overlapping_junction_id wn = "A".
Proof.
  exact (suppression_persists toy_map toy_flags
           (trajectory_of [at_ 2 0; at_ 1 4]) (at_ 2 0) [at_ 1 4] 3
           no_story (world_with "A")
           eq_refl eq_refl eq_refl eq_refl eq_refl).
Defined.


Lemma nan_start_never_yields_story_witness :
  let lost := {| path_point := {| x := Double.of_Z 1; y := Double.of_Z 0;
                                  s := S754_nan |} |} in
  beyond_search_distance toy_flags (path_point lost) = false
  /\ in_pnc_junction toy_map toy_flags (path_point lost) = true
  /\ exists w',
       Update toy_map toy_flags (Some (trajectory_of [lost; at_ 1 5]))
         no_story fresh_world = Done (no_story, w').
Proof.
  intros lost. split; [reflexivity | ]. split; [reflexivity | ].
  exact (nan_start_never_yields_story toy_map toy_flags
           (trajectory_of [lost; at_ 1 5]) lost [at_ 1 5]
           no_story fresh_world eq_refl eq_refl).
Defined.

Lemma junction_behind_start_is_dropped_witness :
  let traj := trajectory_of [at_ 0 5; at_ 1 3] in
  exists out w1,
    GetNearestJunction toy_map toy_flags traj None fresh_world
    = Done (out, w1)
    /\ (out_type out = Some PNC_JUNCTION \/ out_type out = Some JUNCTION)
    /\ Double.lt (out_distance out) Double.zero = true
    /\ Update toy_map toy_flags (Some traj) no_story fresh_world
       = Done (no_story, w1).
Proof.
  intros traj.
  assert (Hpre : Forall (passed_over toy_map toy_flags) [at_ 0 5]).
  { repeat constructor. }
  exact (junction_behind_start_is_dropped toy_map toy_flags traj
           [at_ 0 5] (at_ 1 3) [] no_story fresh_world
           eq_refl Hpre eq_refl (or_introl eq_refl)
           (conj eq_refl eq_refl) (conj eq_refl eq_refl) eq_refl).
Defined.
